(** * Heap_management.c: a first-fit segment allocator over a simulated heap

    The program keeps two singly linked lists of [MemSegment] nodes, the
    free list [availableSegs] and the allocated list [occupiedSegs], over a
    simulated heap of 1024 bytes.  [requestMemory] carves a segment from the
    first free node that is large enough, [releaseMemory] moves a node back
    into the free list at its sorted position and [combineFreeSegments]
    merges free nodes that touch.

    The linked lists are modelled as Rocq lists (the [next] field is the tail
    of the list), the three globals as one record that every function takes
    and returns, and [printf] as the list of lines a call writes. *)

From Stdlib Require Import ZArith List Ascii String Bool Lia Sorted.
From Stdlib Require DecimalString DecimalZ.
Import ListNotations.
Open Scope Z_scope.

(** ** C [int] arithmetic *)

Module Int.

Definition min_signed : Z := -2147483648.
Definition max_signed : Z := 2147483647.

(** The value of an [int] expression whose mathematical result is [z], on
    a two's complement machine with 32-bit [int]. *)
Definition wrap (z : Z) : Z := (z + 2147483648) mod 4294967296 - 2147483648.

Definition add (a b : Z) : Z := wrap (a + b).
Definition sub (a b : Z) : Z := wrap (a - b).

Definition in_range (z : Z) : Prop := min_signed <= z <= max_signed.

End Int.

(** ** Data *)

(** [struct MemSegment]; the [next] pointer is the list structure. *)
Record MemSegment : Type := mkSegment {
  startAddr : Z;
  length : Z;
  memPtr : Z
}.

(** The globals [simulatedHeap], [availableSegs] and [occupiedSegs].
    Pointers into the simulated heap are addresses in [Z]. *)
Record Heap : Type := mkHeap {
  simulatedHeap : Z;
  availableSegs : list MemSegment;
  occupiedSegs : list MemSegment
}.

Definition NULL : Z := 0.

(** The size passed to [malloc] in [setupHeap] and the length of the first
    free segment. *)
Definition CAPACITY : Z := 1024.

(** What a call leaves behind: its return value, the lines it printed and
    the globals after it. *)
Record Returned (A : Type) : Type := mkReturned {
  value : A;
  printed : list string;
  after : Heap
}.
Arguments mkReturned {A} _ _ _.
Arguments value {A} _.
Arguments printed {A} _.
Arguments after {A} _.

Definition newline : string := String (Ascii.ascii_of_nat 10) EmptyString.

Definition msg_invalid_size : string :=
  ("Error: Invalid memory request size!" ++ newline)%string.
Definition msg_alloc_failed : string :=
  ("Error: Allocation failed!" ++ newline)%string.
Definition msg_null_pointer : string :=
  ("Error: Null pointer cannot be freed!" ++ newline)%string.
Definition msg_unallocated : string :=
  ("Error: Attempted to free unallocated memory!" ++ newline)%string.

(** ** Operations *)

(** [setupHeap]: [heap] is what [malloc(1024)] returned and [node_ok] tells
    whether the [malloc] of the first node succeeded; [None] is [exit(1)]. *)
Definition setupHeap (heap : Z) (node_ok : bool) : option Heap :=
  if heap =? NULL then None
  else if negb node_ok then None
  else Some {| simulatedHeap := heap;
               availableSegs := [ {| startAddr := 0; length := 1024; memPtr := NULL |} ];
               occupiedSegs := [] |}.

(** The loop [while (ptr != NULL && cond(ptr)) { prev = ptr; ptr = ptr->next; }]
    that all three searches of the program share: the nodes walked over, in
    order, and the list that starts at the node [ptr] stops on. *)
Fixpoint walk (cond : MemSegment -> bool) (ptr : list MemSegment)
  : list MemSegment * list MemSegment :=
  match ptr with
  | [] => ([], [])
  | p :: next =>
      if cond p then
        let (prev, rest) := walk cond next in (p :: prev, rest)
      else ([], ptr)
  end.

(** [requestMemory]; [node_ok] tells whether the [malloc] of the new node
    succeeded. *)
Definition requestMemory (node_ok : bool) (size : Z) (st : Heap) : Returned Z :=
  if size <=? 0 then mkReturned NULL [msg_invalid_size] st
  else
    let (prev, rest) := walk (fun p => size >? length p) (availableSegs st) in
    match rest with
    | [] => mkReturned NULL [] st
    | ptr :: next =>
        if negb node_ok then mkReturned NULL [msg_alloc_failed] st
        else
          let newSegment :=
            {| startAddr := startAddr ptr;
               length := size;
               memPtr := simulatedHeap st + startAddr ptr |} in
          let ptr' :=
            {| startAddr := Int.add (startAddr ptr) size;
               length := Int.sub (length ptr) size;
               memPtr := memPtr ptr |} in
          mkReturned (memPtr newSegment) []
            {| simulatedHeap := simulatedHeap st;
               availableSegs :=
                 if length ptr' =? 0 then prev ++ next
                 else prev ++ ptr' :: next;
               occupiedSegs := occupiedSegs st ++ [newSegment] |}
    end.

(** The loop of [combineFreeSegments] with [ptr] on a node and [next] the
    list behind it: a merge keeps [ptr] where it is. *)
Fixpoint combineFrom (ptr : MemSegment) (next : list MemSegment)
  : list MemSegment :=
  match next with
  | [] => [ptr]
  | temp :: next' =>
      if Int.add (startAddr ptr) (length ptr) =? startAddr temp then
        combineFrom {| startAddr := startAddr ptr;
                       length := Int.add (length ptr) (length temp);
                       memPtr := memPtr ptr |} next'
      else ptr :: combineFrom temp next'
  end.

Definition combineFreeSegments (segs : list MemSegment) : list MemSegment :=
  match segs with
  | [] => []
  | ptr :: next => combineFrom ptr next
  end.

(** [releaseMemory]. *)
Definition releaseMemory (p : Z) (st : Heap) : Returned unit :=
  if p =? NULL then mkReturned tt [msg_null_pointer] st
  else
    let (prev1, rest1) :=
      walk (fun s => negb (memPtr s =? p)) (occupiedSegs st) in
    match rest1 with
    | [] => mkReturned tt [msg_unallocated] st
    | ptr1 :: next1 =>
        let (prev, curr) :=
          walk (fun c => startAddr c <? startAddr ptr1) (availableSegs st) in
        mkReturned tt []
          {| simulatedHeap := simulatedHeap st;
             availableSegs := combineFreeSegments (prev ++ ptr1 :: curr);
             occupiedSegs := prev1 ++ next1 |}
    end.

(** ** Runs of the allocator *)

Inductive Call : Type :=
| Allocate (size : Z) (node_ok : bool)
| Free (p : Z).

Definition call (st : Heap) (c : Call) : Heap :=
  match c with
  | Allocate size node_ok => after (requestMemory node_ok size st)
  | Free p => after (releaseMemory p st)
  end.

Definition run (calls : list Call) (st : Heap) : Heap :=
  fold_left call calls st.

(** [malloc] returns [NULL] or the address of a block, which is above 0. *)
Definition reachable (st : Heap) : Prop :=
  exists heap node_ok st0 calls,
    0 < heap /\ setupHeap heap node_ok = Some st0 /\ st = run calls st0.

Definition ranges (segs : list MemSegment) : list (Z * Z) :=
  map (fun s => (startAddr s, length s)) segs.

(** The spec's names for the ways a call can fail, read off what the call
    returns and prints. *)
Inductive AllocError : Type := InvalidSize | OutOfMemory.
Inductive FreeError : Type := NullHandle | UnknownHandle.

Definition alloc_fails (e : AllocError) (r : Returned Z) : Prop :=
  value r = NULL /\
  printed r = match e with
              | InvalidSize => [msg_invalid_size]
              | OutOfMemory => []
              end.

Definition free_fails (e : FreeError) (r : Returned unit) : Prop :=
  printed r = match e with
              | NullHandle => [msg_null_pointer]
              | UnknownHandle => [msg_unallocated]
              end.

(** [releaseMemory] returns nothing; it went through when it printed
    nothing. *)
Definition free_succeeds (r : Returned unit) : Prop := printed r = [].

(** ** Ranges and the invariants of the two lists *)

(** Address [a] lies in the range of segment [s]. *)
Definition covers (a : Z) (s : MemSegment) : bool :=
  (startAddr s <=? a) && (a <? startAddr s + length s).

(** How many segments of [segs] address [a] lies in. *)
Definition cover (a : Z) (segs : list MemSegment) : nat :=
  List.length (filter (covers a) segs).

Definition in_heap (s : MemSegment) : Prop :=
  0 <= startAddr s /\ 0 < length s /\ startAddr s + length s <= CAPACITY.

(** A segment as the data model has it, with an end that is an [int]. *)
Definition segment_ok (s : MemSegment) : Prop :=
  0 <= startAddr s /\ 0 < length s /\
  startAddr s + length s <= Int.max_signed.

(** The segments lie in the heap from [lo] on, in ascending order, each at
    least [gap] bytes behind the end of the one before. *)
Fixpoint spaced (gap lo : Z) (segs : list MemSegment) : Prop :=
  match segs with
  | [] => True
  | s :: rest =>
      lo <= startAddr s /\ 0 < length s /\
      startAddr s + length s <= CAPACITY /\
      spaced gap (startAddr s + length s + gap) rest
  end.

(** [s] ends strictly before [t] starts. *)
Definition before (s t : MemSegment) : Prop :=
  startAddr s < startAddr t /\ startAddr s + length s < startAddr t.

Record Inv (st : Heap) : Prop := mkInv {
  inv_base : 0 < simulatedHeap st;
  inv_free : spaced 1 0 (availableSegs st);
  inv_occupied : Forall in_heap (occupiedSegs st);
  inv_handle :
    Forall (fun s => memPtr s = simulatedHeap st + startAddr s)
           (occupiedSegs st);
  inv_cover :
    forall a, cover a (availableSegs st ++ occupiedSegs st)
              = if (0 <=? a) && (a <? CAPACITY) then 1%nat else 0%nat
}.

(** The handles the calls of a run returned, in the order they were
    returned; [main] keeps them in [allocatedMem]. *)
Fixpoint issued (calls : list Call) (st : Heap) : list Z :=
  match calls with
  | [] => []
  | c :: calls' =>
      match c with
      | Allocate size node_ok =>
          let r := requestMemory node_ok size st in
          if value r =? NULL then issued calls' (after r)
          else value r :: issued calls' (after r)
      | Free p => issued calls' (after (releaseMemory p st))
      end
  end.

(** [l1] is [l2] with some elements left out, the others in their order. *)
Inductive Subsequence {A : Type} : list A -> list A -> Prop :=
| Subsequence_nil : Subsequence [] []
| Subsequence_keep x l1 l2 :
    Subsequence l1 l2 -> Subsequence (x :: l1) (x :: l2)
| Subsequence_drop x l1 l2 :
    Subsequence l1 l2 -> Subsequence l1 (x :: l2).

(** Two states to try the operations on: a run from a fresh heap at
    address 4096, and a heap with three holes. *)
Definition fresh_heap : Heap :=
  {| simulatedHeap := 4096;
     availableSegs := [ {| startAddr := 0; length := 1024; memPtr := NULL |} ];
     occupiedSegs := [] |}.

Definition sample_run : list Call :=
  [Allocate 100 true; Allocate 200 true; Free 4096;
   Allocate 50 true; Free 4196; Allocate 1000 true; Allocate 30 true].

Definition sample_holes : Heap :=
  {| simulatedHeap := 4096;
     availableSegs :=
       [ {| startAddr := 0; length := 40; memPtr := 4096 |};
         {| startAddr := 100; length := 200; memPtr := NULL |};
         {| startAddr := 500; length := 60; memPtr := NULL |} ];
     occupiedSegs :=
       [ {| startAddr := 40; length := 60; memPtr := 4136 |};
         {| startAddr := 300; length := 200; memPtr := 4396 |};
         {| startAddr := 560; length := 464; memPtr := 4656 |} ] |}.

(** ** The rest of the program: the tables, the teardown and the menu *)

(** [printf("%d", z)]: the decimal digits of [z], with a minus sign when
    [z] is negative. *)
Definition print_int (z : Z) : string :=
  DecimalString.NilEmpty.string_of_int (Z.to_int z).

Definition tab : string := String (Ascii.ascii_of_nat 9) EmptyString.

(** The line [showSegmentList] prints for one node. *)
Definition segment_row (ptr : MemSegment) : string :=
  (print_int (startAddr ptr) ++ tab ++ print_int (length ptr) ++ newline)%string.

(** [showSegmentList]: what each [printf] of it writes, in order. *)
Definition showSegmentList (segs : list MemSegment) : list string :=
  ("Address" ++ tab ++ "Size" ++ newline)%string
  :: map segment_row segs ++ [newline].

(** [showMemoryState]. *)
Definition showMemoryState (st : Heap) : list string :=
  [(newline ++ "Free Memory Segments" ++ newline)%string]
  ++ showSegmentList (availableSegs st)
  ++ [("Allocated Memory Segments" ++ newline)%string]
  ++ showSegmentList (occupiedSegs st).

(** One of the two loops of [releaseHeap]: how often it calls [free]. *)
Fixpoint free_nodes (ptr : list MemSegment) : Z :=
  match ptr with
  | [] => 0
  | temp :: next => 1 + free_nodes next
  end.

(** [releaseHeap]: how often it calls [free], once for the simulated heap
    and once for each node of the two lists. *)
Definition releaseHeap (st : Heap) : Z :=
  1 + free_nodes (availableSegs st) + free_nodes (occupiedSegs st).

(** How often the loop of [combineFreeSegments] calls [free]. *)
Fixpoint combineFrom_frees (ptr : MemSegment) (next : list MemSegment) : Z :=
  match next with
  | [] => 0
  | temp :: next' =>
      if Int.add (startAddr ptr) (length ptr) =? startAddr temp then
        1 + combineFrom_frees {| startAddr := startAddr ptr;
                                 length := Int.add (length ptr) (length temp);
                                 memPtr := memPtr ptr |} next'
      else combineFrom_frees temp next'
  end.

Definition combineFreeSegments_frees (segs : list MemSegment) : Z :=
  match segs with
  | [] => 0
  | ptr :: next => combineFrom_frees ptr next
  end.

(** The blocks a call of [requestMemory] takes from [malloc] less the
    blocks it gives to [free]: the new node, and the free node when it is
    used up. *)
Definition requestMemory_blocks (node_ok : bool) (size : Z) (st : Heap) : Z :=
  if size <=? 0 then 0
  else
    let (prev, rest) := walk (fun p => size >? length p) (availableSegs st) in
    match rest with
    | [] => 0
    | ptr :: next =>
        if negb node_ok then 0
        else 1 - (if Int.sub (length ptr) size =? 0 then 1 else 0)
    end.

(** The same for [releaseMemory], which calls [malloc] nowhere and [free]
    in [combineFreeSegments] only. *)
Definition releaseMemory_blocks (p : Z) (st : Heap) : Z :=
  if p =? NULL then 0
  else
    let (prev1, rest1) :=
      walk (fun s => negb (memPtr s =? p)) (occupiedSegs st) in
    match rest1 with
    | [] => 0
    | ptr1 :: next1 =>
        let (prev, curr) :=
          walk (fun c => startAddr c <? startAddr ptr1) (availableSegs st) in
        - combineFreeSegments_frees (prev ++ ptr1 :: curr)
    end.

(** The locals of [main] with the globals: the array [allocatedMem], whose
    cells hold nothing until they are written, and [count]; [blocks] counts
    the blocks [malloc] returned and [free] was not yet called on. *)
Record Program : Type := mkProgram {
  globals : Heap;
  allocatedMem : list (option Z);
  count : Z;
  blocks : Z
}.

(** What one turn of the menu loop gets from outside: the option read, the
    number read after it (the size for option 1, the index for option 2)
    and whether a [malloc] in this turn succeeds. *)
Record Turn : Type := mkTurn {
  chosen : Z;
  number : Z;
  malloc_ok : bool
}.

(** [a[i]] and [a[i] = v]; [None] is an access outside the array or a read
    of a cell that holds nothing. *)
Definition load (i : Z) (a : list (option Z)) : option Z :=
  if (0 <=? i) && (i <? Z.of_nat (List.length a)) then
    match nth_error a (Z.to_nat i) with
    | Some (Some v) => Some v
    | _ => None
    end
  else None.

Definition store (i : Z) (v : Z) (a : list (option Z))
  : option (list (option Z)) :=
  if (0 <=? i) && (i <? Z.of_nat (List.length a)) then
    Some (firstn (Z.to_nat i) a ++ Some v :: skipn (S (Z.to_nat i)) a)
  else None.

Definition menu : string :=
  (newline ++ "1. Allocate Memory" ++ newline ++ "2. Free Memory" ++ newline
   ++ "3. Display Memory" ++ newline ++ "4. Exit" ++ newline)%string.

(** The body of the loop of [main]: the locals and globals after it and
    what it printed; [None] when it accesses [allocatedMem] outside its
    bounds. *)
Definition main_turn (t : Turn) (ps : Program)
  : option (Program * list string) :=
  if chosen t =? 1 then
    let r := requestMemory (malloc_ok t) (number t) (globals ps) in
    match store (count ps) (value r) (allocatedMem ps) with
    | None => None
    | Some mem =>
        let b := blocks ps
                 + requestMemory_blocks (malloc_ok t) (number t) (globals ps) in
        if value r =? NULL then
          Some ({| globals := after r; allocatedMem := mem;
                   count := count ps; blocks := b |},
                [menu; "Enter size: "%string] ++ printed r
                ++ [("Allocation failed." ++ newline)%string])
        else
          Some ({| globals := after r; allocatedMem := mem;
                   count := Int.add (count ps) 1; blocks := b |},
                [menu; "Enter size: "%string] ++ printed r
                ++ [("Memory allocated at index " ++ print_int (count ps)
                     ++ newline)%string])
    end
  else if chosen t =? 2 then
    if (number t >=? 0) && (number t <? count ps) then
      match load (number t) (allocatedMem ps) with
      | None => None
      | Some p =>
          let r := releaseMemory p (globals ps) in
          match store (number t) NULL (allocatedMem ps) with
          | None => None
          | Some mem =>
              Some ({| globals := after r; allocatedMem := mem;
                       count := count ps;
                       blocks := blocks ps
                                 + releaseMemory_blocks p (globals ps) |},
                    [menu; "Enter index: "%string] ++ printed r)
          end
      end
    else
      Some (ps, [menu; "Enter index: "%string;
                 ("Invalid index." ++ newline)%string])
  else if chosen t =? 3 then
    Some (ps, [menu] ++ showMemoryState (globals ps))
  else Some (ps, [menu]).

(** How a run of [main] stands when the turns given are used up. *)
Inductive Outcome : Type :=
| Failed (out : list string) (unfreed : Z)
| Waiting (ps : Program) (out : list string)
| Exited (out : list string) (unfreed : Z)
| Undefined.

(** The loop of [main] from the locals and globals [ps], with [out] printed
    so far.  It ends with the turn that reads option 4, after which
    [releaseHeap] runs; [Waiting] is the loop in [scanf] for the next
    option. *)
Fixpoint main_loop (turns : list Turn) (ps : Program) (out : list string)
  : Outcome :=
  match turns with
  | [] => Waiting ps out
  | t :: turns' =>
      match main_turn t ps with
      | None => Undefined
      | Some (ps', printed_now) =>
          if chosen t =? 4 then
            Exited (out ++ printed_now) (blocks ps' - releaseHeap (globals ps'))
          else main_loop turns' ps' (out ++ printed_now)
      end
  end.

Definition msg_heap_failed : string :=
  ("Error: Heap allocation failed!" ++ newline)%string.
Definition msg_segment_failed : string :=
  ("Error: Memory segment allocation failed!" ++ newline)%string.

(** [main]: [heap] and [first_node_ok] are the results of the two [malloc]
    calls of [setupHeap], whose [exit(1)] is [Failed]. *)
Definition main (heap : Z) (first_node_ok : bool) (turns : list Turn)
  : Outcome :=
  match setupHeap heap first_node_ok with
  | None =>
      if heap =? NULL then Failed [msg_heap_failed] 0
      else Failed [msg_segment_failed] (1 - 1)
  | Some st =>
      main_loop turns
                {| globals := st; allocatedMem := repeat None 20;
                   count := 0; blocks := 2 |} []
  end.

(** The bytes of a list of segments. *)
Fixpoint total_length (segs : list MemSegment) : Z :=
  match segs with
  | [] => 0
  | s :: rest => length s + total_length rest
  end.

(** The first node with handle [p] taken out of a list. *)
Fixpoint without_handle (p : Z) (segs : list MemSegment) : list MemSegment :=
  match segs with
  | [] => []
  | s :: rest => if memPtr s =? p then rest else s :: without_handle p rest
  end.

(** No node of the list touches the node behind it, in the arithmetic of
    [combineFreeSegments]. *)
Fixpoint settled (segs : list MemSegment) : Prop :=
  match segs with
  | [] => True
  | s :: rest =>
      match rest with
      | [] => True
      | t :: _ => Int.add (startAddr s) (length s) <> startAddr t
      end /\ settled rest
  end.

(** The allocated nodes for requests of the given sizes placed back to
    back from offset [start] on, in a heap at address [heap]. *)
Fixpoint placed (heap start : Z) (sizes : list Z) : list MemSegment :=
  match sizes with
  | [] => []
  | size :: sizes' =>
      {| startAddr := start; length := size; memPtr := heap + start |}
        :: placed heap (start + size) sizes'
  end.

Definition sum_sizes (sizes : list Z) : Z := fold_right Z.add 0 sizes.

(** The bytes of the free and of the allocated segments together. *)
Definition all_bytes (st : Heap) : Z :=
  total_length (availableSegs st) + total_length (occupiedSegs st).

(** The characters [printf("%d")] writes. *)
Definition is_numeric (c : Ascii.ascii) : bool :=
  match c with
  | "0" | "1" | "2" | "3" | "4" | "5" | "6" | "7" | "8" | "9" | "-" => true
  | _ => false
  end%char.

Fixpoint numeric (s : string) : Prop :=
  match s with
  | EmptyString => True
  | String c rest => is_numeric c = true /\ numeric rest
  end.

(** The handles in the cells of [allocatedMem]: the values written that
    are not NULL, in the order of the cells. *)
Fixpoint live_handles (cells : list (option Z)) : list Z :=
  match cells with
  | [] => []
  | Some v :: rest =>
      if v =? NULL then live_handles rest else v :: live_handles rest
  | None :: rest => live_handles rest
  end.

(** The nodes of the two lists. *)
Definition nodes (st : Heap) : Z :=
  Z.of_nat (List.length (availableSegs st))
  + Z.of_nat (List.length (occupiedSegs st)).

(** The turns that choose option 1. *)
Fixpoint requests (turns : list Turn) : Z :=
  match turns with
  | [] => 0
  | t :: turns' => (if chosen t =? 1 then 1 else 0) + requests turns'
  end.

Definition request_turn (size : Z) : Turn :=
  {| chosen := 1; number := size; malloc_ok := true |}.

Definition release_turn (index : Z) : Turn :=
  {| chosen := 2; number := index; malloc_ok := true |}.

(** What holds of the locals and globals of [main] between two turns. *)
Record MainInv (ps : Program) : Prop := mkMainInv {
  mi_heap : Inv (globals ps);
  mi_cells : List.length (allocatedMem ps) = 20%nat;
  mi_count : 0 <= count ps <= 20;
  mi_written :
    Forall (fun c => c <> None)
           (firstn (Z.to_nat (count ps)) (allocatedMem ps));
  mi_table :
    live_handles (firstn (Z.to_nat (count ps)) (allocatedMem ps))
    = map memPtr (occupiedSegs (globals ps));
  mi_blocks : blocks ps = 1 + nodes (globals ps)
}.

(** Turns to try the menu on: four requests, two releases, a release at
    an index that was released, a display and a request for too much. *)
Definition sample_turns : list Turn :=
  [ request_turn 100; request_turn 200; request_turn 50; request_turn 674;
    release_turn 1; release_turn 0; release_turn 1;
    {| chosen := 3; number := 0; malloc_ok := true |};
    request_turn 500; release_turn 7 ].

(** * Proofs *)

Section IntFacts.

Lemma wrap_in_range (z : Z) : Int.in_range z -> Int.wrap z = z.
Proof.
  unfold Int.in_range, Int.wrap, Int.min_signed, Int.max_signed. intros H.
  rewrite Z.mod_small by lia. lia.
Qed.

Lemma add_exact (a b : Z) :
  Int.in_range (a + b) -> Int.add a b = a + b.
Proof. apply wrap_in_range. Qed.

Lemma sub_exact (a b : Z) :
  Int.in_range (a - b) -> Int.sub a b = a - b.
Proof. apply wrap_in_range. Qed.

End IntFacts.

Ltac int_exact :=
  repeat first
    [ rewrite add_exact by (unfold Int.in_range, Int.min_signed, Int.max_signed, CAPACITY in *; lia)
    | rewrite sub_exact by (unfold Int.in_range, Int.min_signed, Int.max_signed, CAPACITY in *; lia) ].

Section Walk.

Variable cond : MemSegment -> bool.

Lemma walk_split (l prev rest : list MemSegment) :
  walk cond l = (prev, rest) ->
  l = prev ++ rest /\
  Forall (fun p => cond p = true) prev /\
  (forall p next, rest = p :: next -> cond p = false).
Proof.
  revert prev rest. induction l as [|x l IH]; simpl; intros prev rest E.
  - inversion E; subst. repeat split; auto. discriminate.
  - destruct (cond x) eqn:Ex.
    + destruct (walk cond l) as [pr rs] eqn:Ew. inversion E; subst.
      destruct (IH _ _ eq_refl) as (-> & Hall & Hstop).
      repeat split; auto.
    + inversion E; subst. repeat split; auto.
      intros p next Hp. inversion Hp; subst. exact Ex.
Qed.

Lemma walk_stop (prev : list MemSegment) (p : MemSegment)
      (next : list MemSegment) :
  Forall (fun s => cond s = true) prev -> cond p = false ->
  walk cond (prev ++ p :: next) = (prev, p :: next).
Proof.
  induction 1 as [|x prev Hx _ IH]; simpl; intros Hp.
  - rewrite Hp. reflexivity.
  - rewrite Hx, IH by assumption. reflexivity.
Qed.

Lemma walk_through (l : list MemSegment) :
  Forall (fun s => cond s = true) l -> walk cond l = (l, []).
Proof.
  induction 1 as [|x l Hx _ IH]; simpl; [reflexivity|].
  rewrite Hx, IH. reflexivity.
Qed.

End Walk.

Section Cover.

Lemma cover_app (a : Z) (l1 l2 : list MemSegment) :
  cover a (l1 ++ l2) = (cover a l1 + cover a l2)%nat.
Proof. unfold cover. rewrite filter_app, length_app. reflexivity. Qed.

Lemma cover_cons (a : Z) (s : MemSegment) (l : list MemSegment) :
  cover a (s :: l) = ((if covers a s then 1 else 0) + cover a l)%nat.
Proof. unfold cover. simpl. destruct (covers a s); reflexivity. Qed.

Lemma cover_nil (a : Z) : cover a [] = 0%nat.
Proof. reflexivity. Qed.

Lemma covers_iff (a : Z) (s : MemSegment) :
  covers a s = true <-> startAddr s <= a < startAddr s + length s.
Proof. unfold covers. rewrite andb_true_iff, Z.leb_le, Z.ltb_lt. tauto. Qed.

Lemma cover_In (a : Z) (s : MemSegment) (l : list MemSegment) :
  In s l -> covers a s = true -> (1 <= cover a l)%nat.
Proof.
  induction l as [|x l IH]; simpl; [tauto|]. intros [->|Hin] Hs.
  - rewrite cover_cons, Hs. lia.
  - rewrite cover_cons. specialize (IH Hin Hs). lia.
Qed.

(** Two segments in two lists that are counted together at most once
    everywhere do not overlap. *)
Lemma cover_disjoint (l1 l2 : list MemSegment) (s t : MemSegment) :
  (forall a, (cover a (l1 ++ l2) <= 1)%nat) ->
  In s l1 -> In t l2 -> 0 < length s -> 0 < length t ->
  startAddr s + length s <= startAddr t \/
  startAddr t + length t <= startAddr s.
Proof.
  intros Hc Hs Ht Ls Lt.
  destruct (Z_le_gt_dec (startAddr s + length s) (startAddr t)) as [|G1];
    [now left|].
  destruct (Z_le_gt_dec (startAddr t + length t) (startAddr s)) as [|G2];
    [now right|].
  exfalso. specialize (Hc (Z.max (startAddr s) (startAddr t))).
  rewrite cover_app in Hc.
  pose proof (cover_In (Z.max (startAddr s) (startAddr t)) s l1 Hs) as C1.
  pose proof (cover_In (Z.max (startAddr s) (startAddr t)) t l2 Ht) as C2.
  rewrite covers_iff in C1, C2.
  assert (1 <= cover (Z.max (startAddr s) (startAddr t)) l1)%nat
    by (apply C1; lia).
  assert (1 <= cover (Z.max (startAddr s) (startAddr t)) l2)%nat
    by (apply C2; lia).
  lia.
Qed.

(** Segments counted at most once everywhere start at different
    addresses. *)
Lemma cover_NoDup (l : list MemSegment) :
  (forall a, (cover a l <= 1)%nat) ->
  Forall (fun s => 0 < length s) l ->
  NoDup (map startAddr l).
Proof.
  induction l as [|x l IH]; simpl; intros Hc Hl; [constructor|].
  inversion Hl as [|? ? Lx Hl']; subst. constructor.
  - intros Hin. apply in_map_iff in Hin. destruct Hin as (y & Ey & Hy).
    specialize (Hc (startAddr x)). rewrite cover_cons in Hc.
    assert (covers (startAddr x) x = true) as Cx
        by (apply covers_iff; lia).
    assert (covers (startAddr x) y = true) as Cy.
    { apply covers_iff. rewrite Forall_forall in Hl'.
      specialize (Hl' y Hy). simpl in Hl'. lia. }
    pose proof (cover_In _ _ _ Hy Cy). rewrite Cx in Hc. lia.
  - apply IH; [|assumption]. intros a. specialize (Hc a).
    rewrite cover_cons in Hc. lia.
Qed.

End Cover.

Section Spaced.

Lemma spaced_lower (gap lo lo' : Z) (l : list MemSegment) :
  lo' <= lo -> spaced gap lo l -> spaced gap lo' l.
Proof. destruct l; simpl; [tauto|]. intuition lia. Qed.

Lemma spaced_gap (gap gap' lo : Z) (l : list MemSegment) :
  gap' <= gap -> spaced gap lo l -> spaced gap' lo l.
Proof.
  intros Hg. revert lo. induction l as [|x l IH]; simpl; [tauto|].
  intros lo (H1 & H2 & H3 & H4). repeat split; try assumption.
  apply IH. eapply spaced_lower; [|eassumption]. lia.
Qed.

Lemma spaced_in_heap (gap lo : Z) (l : list MemSegment) :
  0 <= gap -> 0 <= lo -> spaced gap lo l -> Forall in_heap l.
Proof.
  intros Hg. revert lo. induction l as [|x l IH]; simpl; intros lo Hlo H;
    [constructor|].
  destruct H as (H1 & H2 & H3 & H4). constructor.
  - unfold in_heap. lia.
  - apply (IH (startAddr x + length x + gap)); [lia|assumption].
Qed.

Lemma spaced_elim (gap lo : Z) (prev : list MemSegment) (p : MemSegment)
      (next : list MemSegment) :
  0 <= gap -> spaced gap lo (prev ++ p :: next) ->
  lo <= startAddr p /\ 0 < length p /\
  startAddr p + length p <= CAPACITY /\
  Forall (fun s => startAddr s + length s + gap <= startAddr p) prev /\
  spaced gap (startAddr p + length p + gap) next.
Proof.
  intros Hg. revert lo. induction prev as [|x prev IH]; simpl; intros lo H.
  - intuition.
  - destruct H as (H1 & H2 & H3 & H4).
    destruct (IH _ H4) as (I1 & I2 & I3 & I4 & I5).
    repeat split; try assumption; try lia. constructor; [lia|].
    exact I4.
Qed.

(** The node [p] of a spaced list may be replaced by one that starts no
    earlier and ends at the same address. *)
Lemma spaced_shrink (gap lo : Z) (prev : list MemSegment)
      (p p' : MemSegment) (next : list MemSegment) :
  spaced gap lo (prev ++ p :: next) ->
  startAddr p <= startAddr p' -> 0 < length p' ->
  startAddr p' + length p' = startAddr p + length p ->
  spaced gap lo (prev ++ p' :: next).
Proof.
  revert lo. induction prev as [|x prev IH]; simpl; intros lo H L1 L2 L3.
  - rewrite L3. intuition lia.
  - destruct H as (H1 & H2 & H3 & H4). repeat split; try assumption.
    apply IH; assumption.
Qed.

Lemma spaced_remove (gap lo : Z) (prev : list MemSegment) (p : MemSegment)
      (next : list MemSegment) :
  0 <= gap -> spaced gap lo (prev ++ p :: next) ->
  spaced gap lo (prev ++ next).
Proof.
  intros Hg. revert lo. induction prev as [|x prev IH]; simpl; intros lo H.
  - destruct H as (H1 & H2 & H3 & H4).
    eapply spaced_lower; [|eassumption]. lia.
  - destruct H as (H1 & H2 & H3 & H4). repeat split; try assumption.
    apply IH; assumption.
Qed.

(** Putting a node [q] that overlaps no node of a spaced list at its
    sorted position, as [releaseMemory] does, gives an ascending list in
    which nodes may touch. *)
Lemma spaced_insert (lo : Z) (prev curr : list MemSegment)
      (q : MemSegment) :
  spaced 1 lo (prev ++ curr) -> lo <= startAddr q -> in_heap q ->
  Forall (fun c => startAddr c < startAddr q) prev ->
  (forall c next, curr = c :: next -> startAddr q <= startAddr c) ->
  (forall f, In f (prev ++ curr) ->
             startAddr f + length f <= startAddr q \/
             startAddr q + length q <= startAddr f) ->
  spaced 0 lo (prev ++ q :: curr).
Proof.
  intros H Hlo (Q1 & Q2 & Q3) Hprev. revert lo H Hlo.
  induction Hprev as [|x prev Hx Hprev IH]; simpl; intros lo H Hlo Hc Hd.
  - repeat split; try assumption. rewrite Z.add_0_r.
    destruct curr as [|c next]; simpl in *; [exact I|].
    destruct H as (H1 & H2 & H3 & H4).
    specialize (Hc c next eq_refl).
    destruct (Hd c (or_introl eq_refl)) as [D|D]; [lia|].
    repeat split; try assumption.
    apply (spaced_gap 1); [lia|].
    eapply spaced_lower; [|exact H4]. lia.
  - destruct H as (H1 & H2 & H3 & H4).
    destruct (Hd x (or_introl eq_refl)) as [D|D]; [|lia].
    repeat split; try assumption. rewrite Z.add_0_r.
    apply IH; try assumption.
    + eapply spaced_lower; [|eassumption]. lia.
    + intros f Hf. apply Hd. now right.
Qed.

End Spaced.

Section Combine.

(** On an ascending list whose nodes may touch, the pass leaves no two
    nodes touching. *)
Lemma combineFrom_spaced (next : list MemSegment) :
  forall lo ptr, 0 <= lo -> spaced 0 lo (ptr :: next) ->
                 spaced 1 lo (combineFrom ptr next).
Proof.
  induction next as [|temp next IH]; intros lo ptr Hlo H.
  - simpl in *. intuition.
  - simpl in H. destruct H as (H1 & H2 & H3 & H4 & H5 & H6 & H7).
    rewrite Z.add_0_r in *. simpl. int_exact.
    destruct (Z.eqb_spec (startAddr ptr + length ptr) (startAddr temp))
      as [E|N].
    + apply IH; [assumption|]. simpl. rewrite Z.add_0_r.
      repeat split; try lia.
      replace (startAddr ptr + (length ptr + length temp))
        with (startAddr temp + length temp) by lia.
      assumption.
    + simpl. repeat split; try assumption.
      apply IH; [lia|]. simpl. rewrite Z.add_0_r.
      repeat split; try assumption. lia.
Qed.

(** The pass neither loses nor duplicates an address. *)
Lemma combineFrom_cover (a : Z) (next : list MemSegment) :
  forall lo ptr, 0 <= lo -> spaced 0 lo (ptr :: next) ->
                 cover a (combineFrom ptr next) = cover a (ptr :: next).
Proof.
  induction next as [|temp next IH]; intros lo ptr Hlo H; [reflexivity|].
  simpl in H. destruct H as (H1 & H2 & H3 & H4 & H5 & H6 & H7).
  rewrite Z.add_0_r in *. simpl. int_exact.
  destruct (Z.eqb_spec (startAddr ptr + length ptr) (startAddr temp))
    as [E|N].
  - rewrite (IH lo).
    + rewrite !cover_cons. unfold covers. simpl.
      destruct (startAddr ptr <=? a) eqn:E1,
               (a <? startAddr ptr + (length ptr + length temp)) eqn:E2,
               (a <? startAddr ptr + length ptr) eqn:E3,
               (startAddr temp <=? a) eqn:E4,
               (a <? startAddr temp + length temp) eqn:E5;
        simpl; try reflexivity; exfalso;
        repeat match goal with
               | H : (_ <=? _) = true |- _ => apply Z.leb_le in H
               | H : (_ <=? _) = false |- _ => apply Z.leb_gt in H
               | H : (_ <? _) = true |- _ => apply Z.ltb_lt in H
               | H : (_ <? _) = false |- _ => apply Z.ltb_ge in H
               end; lia.
    + assumption.
    + simpl. rewrite Z.add_0_r. repeat split; try lia.
      replace (startAddr ptr + (length ptr + length temp))
        with (startAddr temp + length temp) by lia.
      assumption.
  - rewrite cover_cons, (IH (startAddr ptr + length ptr)), <- cover_cons.
    + reflexivity.
    + lia.
    + simpl. rewrite Z.add_0_r. repeat split; assumption.
Qed.

(** A list without touching nodes is left as it is. *)
Lemma combineFrom_fixed (next : list MemSegment) :
  forall lo ptr, 0 <= lo -> spaced 1 lo (ptr :: next) ->
                 combineFrom ptr next = ptr :: next.
Proof.
  induction next as [|temp next IH]; intros lo ptr Hlo H; [reflexivity|].
  simpl in H. destruct H as (H1 & H2 & H3 & H4 & H5 & H6 & H7).
  simpl. int_exact.
  destruct (Z.eqb_spec (startAddr ptr + length ptr) (startAddr temp))
    as [E|N]; [lia|].
  f_equal. apply (IH (startAddr ptr + length ptr + 1)); [lia|].
  simpl. repeat split; assumption.
Qed.

(** The pass walks over a prefix without touching nodes and goes on from
    the node behind it. *)
Lemma combineFrom_prefix (prev : list MemSegment) :
  forall lo ptr q rest,
    0 <= lo -> spaced 1 lo (ptr :: prev ++ [q]) ->
    combineFrom ptr (prev ++ q :: rest) = ptr :: prev ++ combineFrom q rest.
Proof.
  induction prev as [|x prev IH]; intros lo ptr q rest Hlo H.
  - simpl in H. destruct H as (H1 & H2 & H3 & H4 & H5 & H6 & _).
    simpl. int_exact.
    destruct (Z.eqb_spec (startAddr ptr + length ptr) (startAddr q));
      [lia|reflexivity].
  - change (spaced 1 lo (ptr :: x :: prev ++ [q])) in H.
    destruct H as (H1 & H2 & H3 & H4). pose proof H4 as (H5 & H6 & H7 & _).
    simpl. int_exact.
    destruct (Z.eqb_spec (startAddr ptr + length ptr) (startAddr x));
      [lia|].
    f_equal. apply (IH (startAddr ptr + length ptr + 1)); [lia|].
    exact H4.
Qed.

Lemma combineFreeSegments_prefix (prev : list MemSegment) (lo : Z)
      (q : MemSegment) (rest : list MemSegment) :
  0 <= lo -> spaced 1 lo (prev ++ [q]) ->
  combineFreeSegments (prev ++ q :: rest) = prev ++ combineFrom q rest.
Proof.
  destruct prev as [|x prev]; intros Hlo H; [reflexivity|].
  simpl. eapply combineFrom_prefix; eassumption.
Qed.

End Combine.

Section Cases.

(** The paths through [requestMemory]. *)
Lemma requestMemory_cases (node_ok : bool) (size : Z) (st : Heap) :
  (size <= 0 /\
   requestMemory node_ok size st = mkReturned NULL [msg_invalid_size] st)
  \/
  (0 < size /\
   Forall (fun p => length p < size) (availableSegs st) /\
   requestMemory node_ok size st = mkReturned NULL [] st)
  \/
  (0 < size /\
   exists prev ptr next,
     availableSegs st = prev ++ ptr :: next /\
     Forall (fun p => length p < size) prev /\
     size <= length ptr /\
     ((node_ok = false /\
       requestMemory node_ok size st
       = mkReturned NULL [msg_alloc_failed] st)
      \/
      (node_ok = true /\
       requestMemory node_ok size st
       = mkReturned (simulatedHeap st + startAddr ptr) []
           {| simulatedHeap := simulatedHeap st;
              availableSegs :=
                if Int.sub (length ptr) size =? 0 then prev ++ next
                else prev ++ {| startAddr := Int.add (startAddr ptr) size;
                                length := Int.sub (length ptr) size;
                                memPtr := memPtr ptr |} :: next;
              occupiedSegs :=
                occupiedSegs st ++
                [ {| startAddr := startAddr ptr;
                     length := size;
                     memPtr := simulatedHeap st + startAddr ptr |} ] |}))).
Proof.
  unfold requestMemory. destruct (Z.leb_spec size 0) as [Hs|Hs];
    [left; split; [assumption|reflexivity]|right].
  destruct (walk _ (availableSegs st)) as [prev rest] eqn:Ew.
  apply walk_split in Ew. destruct Ew as (Eq & Hall & Hstop).
  assert (Forall (fun p => length p < size) prev) as Hall'.
  { eapply Forall_impl; [|exact Hall]. simpl. intros p Hp.
    apply Z.gtb_lt in Hp. exact Hp. }
  destruct rest as [|ptr next].
  - left. rewrite app_nil_r in Eq. subst prev. auto.
  - right. split; [assumption|]. exists prev, ptr, next.
    specialize (Hstop ptr next eq_refl). simpl in Hstop.
    assert (size <= length ptr) as Hfit.
    { destruct (Z.gtb_spec size (length ptr)); [discriminate|lia]. }
    repeat split; try assumption.
    destruct node_ok; simpl; [right|left]; split; reflexivity.
Qed.

(** The paths through [releaseMemory]. *)
Lemma releaseMemory_cases (p : Z) (st : Heap) :
  (p = NULL /\
   releaseMemory p st = mkReturned tt [msg_null_pointer] st)
  \/
  (p <> NULL /\
   Forall (fun s => memPtr s <> p) (occupiedSegs st) /\
   releaseMemory p st = mkReturned tt [msg_unallocated] st)
  \/
  (p <> NULL /\
   exists prev1 ptr1 next1 prev curr,
     occupiedSegs st = prev1 ++ ptr1 :: next1 /\
     Forall (fun s => memPtr s <> p) prev1 /\
     memPtr ptr1 = p /\
     availableSegs st = prev ++ curr /\
     Forall (fun c => startAddr c < startAddr ptr1) prev /\
     (forall c next, curr = c :: next -> startAddr ptr1 <= startAddr c) /\
     releaseMemory p st
     = mkReturned tt []
         {| simulatedHeap := simulatedHeap st;
            availableSegs := combineFreeSegments (prev ++ ptr1 :: curr);
            occupiedSegs := prev1 ++ next1 |}).
Proof.
  unfold releaseMemory. destruct (Z.eqb_spec p NULL) as [Hp|Hp];
    [left; split; [assumption|reflexivity]|right].
  destruct (walk _ (occupiedSegs st)) as [prev1 rest1] eqn:Ew1.
  apply walk_split in Ew1. destruct Ew1 as (Eq1 & Hall1 & Hstop1).
  assert (Forall (fun s => memPtr s <> p) prev1) as Hall1'.
  { eapply Forall_impl; [|exact Hall1]. simpl. intros s Hs.
    apply negb_true_iff, Z.eqb_neq in Hs. exact Hs. }
  destruct rest1 as [|ptr1 next1].
  - left. rewrite app_nil_r in Eq1. subst prev1. auto.
  - right. split; [assumption|].
    destruct (walk _ (availableSegs st)) as [prev curr] eqn:Ew.
    apply walk_split in Ew. destruct Ew as (Eq & Hall & Hstop).
    exists prev1, ptr1, next1, prev, curr.
    specialize (Hstop1 ptr1 next1 eq_refl). simpl in Hstop1.
    apply negb_false_iff, Z.eqb_eq in Hstop1.
    repeat split; try assumption.
    + eapply Forall_impl; [|exact Hall]. simpl. intros c Hc.
      apply Z.ltb_lt. exact Hc.
    + intros c next Ec. specialize (Hstop c next Ec). simpl in Hstop.
      apply Z.ltb_ge. exact Hstop.
Qed.

End Cases.

Section Invariant.

Lemma Inv_setupHeap (heap : Z) (node_ok : bool) (st : Heap) :
  0 < heap -> setupHeap heap node_ok = Some st -> Inv st.
Proof.
  unfold setupHeap. intros Hh E.
  destruct (heap =? NULL); [discriminate|].
  destruct (negb node_ok); [discriminate|]. inversion E; subst; clear E.
  constructor; simpl; unfold CAPACITY; try lia; try constructor.
  intros a. rewrite cover_cons, cover_nil. unfold covers. simpl.
  destruct ((0 <=? a) && (a <? 0 + 1024)) eqn:E1; simpl in E1; rewrite E1;
    reflexivity.
Qed.

Lemma Inv_cover_le (st : Heap) (a : Z) :
  Inv st -> (cover a (availableSegs st ++ occupiedSegs st) <= 1)%nat.
Proof.
  intros H. rewrite (inv_cover st H).
  destruct ((0 <=? a) && (a <? CAPACITY)); lia.
Qed.

Lemma Inv_free_in_heap (st : Heap) :
  Inv st -> Forall in_heap (availableSegs st).
Proof.
  intros H. apply (spaced_in_heap 1 0); [lia|lia|apply (inv_free st H)].
Qed.

(** A free and an allocated segment do not overlap. *)
Lemma Inv_disjoint (st : Heap) (f q : MemSegment) :
  Inv st -> In f (availableSegs st) -> In q (occupiedSegs st) ->
  startAddr f + length f <= startAddr q \/
  startAddr q + length q <= startAddr f.
Proof.
  intros H Hf Hq.
  pose proof (Inv_free_in_heap st H) as Hfree.
  pose proof (inv_occupied st H) as Hocc.
  rewrite Forall_forall in Hfree, Hocc.
  apply (cover_disjoint (availableSegs st) (occupiedSegs st));
    try assumption.
  - intros a. apply Inv_cover_le. assumption.
  - apply (Hfree f Hf).
  - apply (Hocc q Hq).
Qed.

(** Allocated segments start at different addresses, so their handles
    differ. *)
Lemma Inv_NoDup_startAddr (st : Heap) :
  Inv st -> NoDup (map startAddr (occupiedSegs st)).
Proof.
  intros H. apply cover_NoDup.
  - intros a. pose proof (Inv_cover_le st a H) as Hc.
    rewrite cover_app in Hc. lia.
  - eapply Forall_impl; [|apply (inv_occupied st H)].
    unfold in_heap. intros s Hs. lia.
Qed.

Lemma Inv_NoDup_memPtr (st : Heap) :
  Inv st -> NoDup (map memPtr (occupiedSegs st)).
Proof.
  intros H. pose proof (Inv_NoDup_startAddr st H) as Hn.
  pose proof (inv_handle st H) as Hh.
  induction (occupiedSegs st) as [|x l IH]; simpl; [constructor|].
  inversion Hn as [|? ? Hx Hn']; subst.
  inversion Hh as [|? ? Ex Hh']; subst.
  constructor; [|apply IH; assumption].
  intros Hin. apply Hx. apply in_map_iff in Hin.
  destruct Hin as (y & Ey & Hy). apply in_map_iff. exists y.
  split; [|assumption]. rewrite Forall_forall in Hh'.
  specialize (Hh' y Hy). simpl in Hh'. lia.
Qed.

Lemma Inv_requestMemory (node_ok : bool) (size : Z) (st : Heap) :
  Inv st -> Inv (after (requestMemory node_ok size st)).
Proof.
  intros H.
  destruct (requestMemory_cases node_ok size st)
    as [(_ & ->)|[(_ & _ & ->)|(Hs & prev & ptr & next & Ea & _ & Hfit & C)]];
    try exact H.
  destruct C as [(_ & ->)|(_ & ->)]; [exact H|]. simpl.
  pose proof (inv_free st H) as Hsp. rewrite Ea in Hsp.
  destruct (spaced_elim 1 0 prev ptr next ltac:(lia) Hsp)
    as (P1 & P2 & P3 & _ & _).
  unfold CAPACITY in P3. int_exact.
  constructor; simpl.
  - apply (inv_base st H).
  - destruct (Z.eqb_spec (length ptr - size) 0) as [E|N].
    + eapply spaced_remove; [|exact Hsp]. lia.
    + eapply spaced_shrink; [exact Hsp|simpl; lia..].
  - apply Forall_app. split; [apply (inv_occupied st H)|].
    constructor; [|constructor]. unfold in_heap, CAPACITY. simpl. lia.
  - apply Forall_app. split; [apply (inv_handle st H)|].
    constructor; [reflexivity|constructor].
  - intros a. rewrite <- (inv_cover st H a), Ea.
    destruct (Z.eqb_spec (length ptr - size) 0) as [E|N];
      rewrite !cover_app, ?cover_cons, !cover_nil; unfold covers; simpl;
      destruct (startAddr ptr <=? a) eqn:E1,
               (a <? startAddr ptr + size) eqn:E2,
               (a <? startAddr ptr + length ptr) eqn:E3,
               (startAddr ptr + size <=? a) eqn:E4,
               (a <? startAddr ptr + size + (length ptr - size)) eqn:E5;
      simpl; try lia; exfalso;
      repeat match goal with
             | H : (_ <=? _) = true |- _ => apply Z.leb_le in H
             | H : (_ <=? _) = false |- _ => apply Z.leb_gt in H
             | H : (_ <? _) = true |- _ => apply Z.ltb_lt in H
             | H : (_ <? _) = false |- _ => apply Z.ltb_ge in H
             end; lia.
Qed.

Lemma Inv_releaseMemory (p : Z) (st : Heap) :
  Inv st -> Inv (after (releaseMemory p st)).
Proof.
  intros H.
  destruct (releaseMemory_cases p st)
    as [(_ & ->)|[(_ & _ & ->)|
        (Hp & prev1 & ptr1 & next1 & prev & curr &
         Eo & _ & Eh & Ea & Hprev & Hcurr & ->)]];
    try exact H.
  simpl.
  pose proof (inv_occupied st H) as Hocc. rewrite Eo in Hocc.
  apply Forall_app in Hocc. destruct Hocc as (Ho1 & Ho2).
  inversion Ho2 as [|? ? Hq Ho3]; subst.
  pose proof (inv_handle st H) as Hh. rewrite Eo in Hh.
  apply Forall_app in Hh. destruct Hh as (Hh1 & Hh2).
  inversion Hh2 as [|? ? _ Hh3]; subst.
  assert (spaced 0 0 (prev ++ ptr1 :: curr)) as Hins.
  { apply spaced_insert; try assumption.
    - rewrite <- Ea. apply (inv_free st H).
    - unfold in_heap in Hq. lia.
    - intros f Hf. apply (Inv_disjoint st); [assumption|congruence|].
      rewrite Eo. apply in_elt. }
  destruct (prev ++ ptr1 :: curr) as [|x l] eqn:El.
  { destruct prev; discriminate. }
  constructor; simpl.
  - apply (inv_base st H).
  - apply combineFrom_spaced; [lia|assumption].
  - apply Forall_app. split; assumption.
  - apply Forall_app. split; assumption.
  - intros a. rewrite <- (inv_cover st H a), Ea, Eo.
    rewrite cover_app, (combineFrom_cover a l 0 x ltac:(lia) Hins), <- El.
    rewrite !cover_app, !cover_cons. lia.
Qed.

Lemma Inv_run (calls : list Call) :
  forall st, Inv st -> Inv (run calls st).
Proof.
  induction calls as [|c calls IH]; intros st H; [exact H|].
  simpl. apply IH. destruct c; simpl.
  - apply Inv_requestMemory. assumption.
  - apply Inv_releaseMemory. assumption.
Qed.

Lemma reachable_Inv (st : Heap) : reachable st -> Inv st.
Proof.
  intros (heap & node_ok & st0 & calls & Hh & E & ->).
  apply Inv_run. eapply Inv_setupHeap; eassumption.
Qed.

End Invariant.

Section Failures.

Lemma requestMemory_invalid (node_ok : bool) (size : Z) (st : Heap) :
  size <= 0 ->
  requestMemory node_ok size st = mkReturned NULL [msg_invalid_size] st.
Proof.
  intros H. unfold requestMemory.
  destruct (Z.leb_spec size 0); [reflexivity|lia].
Qed.

Lemma requestMemory_exhausted (node_ok : bool) (size : Z) (st : Heap) :
  0 < size -> Forall (fun s => length s < size) (availableSegs st) ->
  requestMemory node_ok size st = mkReturned NULL [] st.
Proof.
  intros H Hall. unfold requestMemory.
  destruct (Z.leb_spec size 0); [lia|].
  rewrite walk_through; [reflexivity|].
  eapply Forall_impl; [|exact Hall]. simpl. intros s Hs.
  apply Z.gtb_lt. lia.
Qed.

Lemma releaseMemory_null (st : Heap) :
  releaseMemory NULL st = mkReturned tt [msg_null_pointer] st.
Proof. reflexivity. Qed.

Lemma releaseMemory_unknown (p : Z) (st : Heap) :
  p <> NULL -> Forall (fun s => memPtr s <> p) (occupiedSegs st) ->
  releaseMemory p st = mkReturned tt [msg_unallocated] st.
Proof.
  intros H Hall. unfold releaseMemory.
  destruct (Z.eqb_spec p NULL); [contradiction|].
  rewrite walk_through; [reflexivity|].
  eapply Forall_impl; [|exact Hall]. simpl. intros s Hs.
  apply negb_true_iff, Z.eqb_neq. exact Hs.
Qed.

End Failures.

Section Positions.

(** Two nodes at different positions that both hold [a] are counted
    twice. *)
Lemma cover_twice (a : Z) (l : list MemSegment) :
  forall i j s t,
    i <> j -> nth_error l i = Some s -> nth_error l j = Some t ->
    covers a s = true -> covers a t = true -> (2 <= cover a l)%nat.
Proof.
  induction l as [|x l IH]; intros i j s t Hij Hi Hj Cs Ct.
  - destruct i; discriminate.
  - rewrite cover_cons. destruct i as [|i], j as [|j]; simpl in Hi, Hj.
    + contradiction.
    + inversion Hi; subst. rewrite Cs.
      pose proof (cover_In a t l (nth_error_In _ _ Hj) Ct). lia.
    + inversion Hj; subst. rewrite Ct.
      pose proof (cover_In a s l (nth_error_In _ _ Hi) Cs). lia.
    + assert (i <> j) as Hij' by congruence.
      pose proof (IH i j s t Hij' Hi Hj Cs Ct). lia.
Qed.

Lemma cover_exists (a : Z) (l : list MemSegment) :
  (1 <= cover a l)%nat -> exists s, In s l /\ covers a s = true.
Proof.
  induction l as [|x l IH]; [rewrite cover_nil; lia|].
  rewrite cover_cons. destruct (covers a x) eqn:Cx.
  - intros _. exists x. split; [now left|assumption].
  - intros H. destruct IH as (s & Hs & Cs); [lia|].
    exists s. split; [now right|assumption].
Qed.

Lemma spaced_from (gap lo : Z) (l : list MemSegment) :
  0 <= gap -> spaced gap lo l ->
  Forall (fun s => lo <= startAddr s) l.
Proof.
  intros Hg. revert lo. induction l as [|x l IH]; simpl; intros lo H;
    [constructor|].
  destruct H as (H1 & H2 & H3 & H4). constructor; [assumption|].
  eapply Forall_impl; [|apply (IH _ H4)]. simpl. intros s Hs. lia.
Qed.

Lemma spaced_sorted (lo : Z) (l : list MemSegment) :
  spaced 1 lo l -> StronglySorted before l.
Proof.
  revert lo. induction l as [|x l IH]; simpl; intros lo H;
    [constructor|].
  destruct H as (H1 & H2 & H3 & H4). constructor; [eapply IH; eassumption|].
  eapply Forall_impl; [|apply (spaced_from 1 _ l ltac:(lia) H4)].
  unfold before. simpl. intros s Hs. lia.
Qed.

Lemma spaced_last (gap lo : Z) (prev : list MemSegment)
      (p p' : MemSegment) (next : list MemSegment) :
  spaced gap lo (prev ++ p :: next) ->
  startAddr p <= startAddr p' -> 0 < length p' ->
  startAddr p' + length p' <= CAPACITY ->
  spaced gap lo (prev ++ [p']).
Proof.
  revert lo. induction prev as [|x prev IH]; simpl; intros lo H L1 L2 L3.
  - intuition lia.
  - destruct H as (H1 & H2 & H3 & H4). repeat split; try assumption.
    apply IH; assumption.
Qed.

Lemma walk_at (cond : MemSegment -> bool) (prev rest : list MemSegment) :
  Forall (fun s => cond s = true) prev ->
  (forall c next, rest = c :: next -> cond c = false) ->
  walk cond (prev ++ rest) = (prev, rest).
Proof.
  intros Hall Hstop. destruct rest as [|c next].
  - rewrite app_nil_r. apply walk_through. assumption.
  - apply walk_stop; [assumption|]. eapply Hstop. reflexivity.
Qed.

End Positions.

Section SubsequenceFacts.

Context {A : Type}.

Lemma Subsequence_refl (l : list A) : Subsequence l l.
Proof. induction l; constructor; assumption. Qed.

Lemma Subsequence_trans (l1 l2 l3 : list A) :
  Subsequence l1 l2 -> Subsequence l2 l3 -> Subsequence l1 l3.
Proof.
  intros H12 H23. revert l1 H12.
  induction H23 as [|x l2 l3 _ IH|x l2 l3 _ IH]; intros l1 H12.
  - exact H12.
  - inversion H12; subst; constructor; apply IH; assumption.
  - constructor. apply IH. assumption.
Qed.

Lemma Subsequence_remove (l1 : list A) (x : A) (l2 : list A) :
  Subsequence (l1 ++ l2) (l1 ++ x :: l2).
Proof.
  induction l1; simpl.
  - constructor. apply Subsequence_refl.
  - constructor. assumption.
Qed.

Lemma Subsequence_app (l1 l2 k : list A) :
  Subsequence l1 l2 -> Subsequence (l1 ++ k) (l2 ++ k).
Proof.
  induction 1; simpl; try (constructor; assumption).
  apply Subsequence_refl.
Qed.

End SubsequenceFacts.

Section Order.

Lemma sorted_behind {A : Type} (R : A -> A -> Prop) (prev : list A)
      (p : A) (next : list A) :
  StronglySorted R (prev ++ p :: next) -> Forall (R p) next.
Proof.
  induction prev as [|x prev IH]; simpl; intros H;
    apply StronglySorted_inv in H; destruct H as (H1 & H2);
    [exact H2|apply IH; exact H1].
Qed.

End Order.

Section IssueOrder.

Lemma released_Subsequence (p : Z) (st : Heap) :
  Subsequence (occupiedSegs (after (releaseMemory p st)))
              (occupiedSegs st).
Proof.
  destruct (releaseMemory_cases p st)
    as [(_ & ->)|[(_ & _ & ->)|
        (_ & prev1 & ptr1 & next1 & prev & curr &
         Eo & _ & _ & _ & _ & _ & ->)]];
    try apply Subsequence_refl.
  simpl. rewrite Eo. apply Subsequence_remove.
Qed.

Lemma Subsequence_map {A B : Type} (f : A -> B) (l1 l2 : list A) :
  Subsequence l1 l2 -> Subsequence (map f l1) (map f l2).
Proof. induction 1; simpl; constructor; assumption. Qed.

(** The handles of the allocated list are handles that were there at the
    start or that the calls returned, in that order. *)
Lemma occupied_in_issue_order (calls : list Call) :
  forall st,
    Inv st ->
    Subsequence (map memPtr (occupiedSegs (run calls st)))
                (map memPtr (occupiedSegs st) ++ issued calls st).
Proof.
  induction calls as [|c calls IH]; intros st H.
  - simpl. rewrite app_nil_r. apply Subsequence_refl.
  - destruct c as [size node_ok|p]; simpl.
    + pose proof (IH _ (Inv_requestMemory node_ok size st H)) as IH'.
      destruct (requestMemory_cases node_ok size st)
        as [(_ & E)|[(_ & _ & E)|
            (_ & prev & ptr & next & Ea & _ & _ & C)]];
        try (rewrite E in *; simpl in *; exact IH').
      destruct C as [(_ & E)|(_ & E)];
        [rewrite E in *; simpl in *; exact IH'|].
      rewrite E in *. simpl in *.
      pose proof (inv_free st H) as Hsp. rewrite Ea in Hsp.
      destruct (spaced_elim 1 0 prev ptr next ltac:(lia) Hsp)
        as (P1 & _).
      pose proof (inv_base st H) as Hb.
      destruct (Z.eqb_spec (simulatedHeap st + startAddr ptr) NULL)
        as [Z0|_]; [unfold NULL in Z0; lia|].
      rewrite map_app, <- app_assoc in IH'. exact IH'.
    + eapply Subsequence_trans;
        [apply (IH _ (Inv_releaseMemory p st H))|].
      apply Subsequence_app, Subsequence_map, released_Subsequence.
Qed.

End IssueOrder.

(** * The allocator's properties *)

(** C1. After any sequence of allocate and free calls on a heap that was
    set up, every segment is a non-empty range, an address lies in some
    free or allocated segment exactly when it lies in [[0, 1024)], and two
    segments at different places of the two lists (free and free, allocated
    and allocated, or free and allocated) have no address in common: every
    address of the heap is counted exactly once. *)
Theorem coverage_invariant (st : Heap) (Hst : reachable st) :
  let segs := availableSegs st ++ occupiedSegs st in
  Forall (fun s => 0 < length s) segs /\
  (forall a, 0 <= a < CAPACITY <->
             exists s, In s segs /\ covers a s = true) /\
  (forall i j s t a,
      i <> j -> nth_error segs i = Some s -> nth_error segs j = Some t ->
      ~ (covers a s = true /\ covers a t = true)) /\
  (forall a, cover a segs
             = if (0 <=? a) && (a <? CAPACITY) then 1%nat else 0%nat).
Proof.
  apply reachable_Inv in Hst. intros segs.
  pose proof (inv_cover st Hst) as Hc. fold segs in Hc.
  split; [|split; [|split]].
  - apply Forall_app. split.
    + eapply Forall_impl; [|apply (Inv_free_in_heap st Hst)].
      unfold in_heap. intros s Hs. lia.
    + eapply Forall_impl; [|apply (inv_occupied st Hst)].
      unfold in_heap. intros s Hs. lia.
  - intros a. split.
    + intros Ha. apply cover_exists. rewrite Hc.
      destruct (Z.leb_spec 0 a); [|lia].
      destruct (Z.ltb_spec a CAPACITY); simpl; lia.
    + intros (s & Hs & Cs). pose proof (cover_In a s segs Hs Cs) as H1.
      rewrite Hc in H1.
      destruct (Z.leb_spec 0 a), (Z.ltb_spec a CAPACITY); simpl in H1; lia.
  - intros i j s t a Hij Hi Hj (Cs & Ct).
    pose proof (cover_twice a segs i j s t Hij Hi Hj Cs Ct) as H2.
    rewrite Hc in H2. destruct ((0 <=? a) && (a <? CAPACITY)); lia.
  - exact Hc.
Qed.

Lemma reachable_sample_run : reachable (run sample_run fresh_heap).
Proof.
  exists 4096, true, fresh_heap, sample_run.
  split; [lia|]. split; reflexivity.
Defined.

Lemma coverage_invariant_witness :
  let segs := availableSegs (run sample_run fresh_heap)
              ++ occupiedSegs (run sample_run fresh_heap) in
  Forall (fun s => 0 < length s) segs /\
  (forall a, 0 <= a < CAPACITY <->
             exists s, In s segs /\ covers a s = true) /\
  (forall i j s t a,
      i <> j -> nth_error segs i = Some s -> nth_error segs j = Some t ->
      ~ (covers a s = true /\ covers a t = true)) /\
  (forall a, cover a segs
             = if (0 <=? a) && (a <? CAPACITY) then 1%nat else 0%nat).
Proof.
  exact (coverage_invariant (run sample_run fresh_heap) reachable_sample_run).
Defined.

(** C2. In a state whose segments are segments of the data model
    (non-negative start, positive length, an end that is an [int]), a
    request of a positive size that some free segment can hold, with the
    node for the new segment allocated, stops at the
    first free segment, in list order, that is long enough: all segments
    before it are too short.  The new allocated segment has the requested
    size and the start of the chosen segment, the handle returned is the
    heap's base plus that start, the chosen segment's start moves up by the
    size and its length goes down by the size, and it leaves the free list
    when nothing of it remains; the segments of both lists are again
    segments of the data model, so none has length zero.  When the free
    list is in ascending order of start, the chosen segment is the one with
    the lowest start among those that are long enough. *)
Theorem first_fit_carves_low_end (size : Z) (st : Heap)
        (Hsize : 0 < size)
        (Hfit : exists s, In s (availableSegs st) /\ size <= length s)
        (Hfree : Forall segment_ok (availableSegs st))
        (Hocc : Forall segment_ok (occupiedSegs st)) :
  let r := requestMemory true size st in
  exists prev ptr next,
    availableSegs st = prev ++ ptr :: next /\
    Forall (fun p => length p < size) prev /\
    size <= length ptr /\
    value r = simulatedHeap st + startAddr ptr /\
    printed r = [] /\
    occupiedSegs (after r)
    = occupiedSegs st ++ [ {| startAddr := startAddr ptr;
                              length := size;
                              memPtr := simulatedHeap st + startAddr ptr |} ] /\
    availableSegs (after r)
    = (if length ptr =? size then prev ++ next
       else prev ++ {| startAddr := startAddr ptr + size;
                       length := length ptr - size;
                       memPtr := memPtr ptr |} :: next) /\
    Forall segment_ok (availableSegs (after r)) /\
    Forall segment_ok (occupiedSegs (after r)) /\
    (StronglySorted (fun s t => startAddr s < startAddr t)
                    (availableSegs st) ->
     forall s, In s (availableSegs st) -> size <= length s ->
               startAddr ptr <= startAddr s).
Proof.
  intros r. subst r.
  destruct (requestMemory_cases true size st)
    as [(Hs & _)|[(_ & Hall & _)|(_ & prev & ptr & next & Ea & Hprev & Hp & C)]].
  - lia.
  - exfalso. destruct Hfit as (s & Hs & Ls). rewrite Forall_forall in Hall.
    specialize (Hall s Hs). simpl in Hall. lia.
  - destruct C as [(C & _)|(_ & E)]; [discriminate|].
    exists prev, ptr, next. rewrite E. simpl.
    pose proof Hfree as Hfree'. rewrite Ea in Hfree'.
    apply Forall_app in Hfree'. destruct Hfree' as (F1 & F2).
    inversion F2 as [|? ? (P1 & P2 & P3) F3]; subst.
    unfold Int.max_signed in P3. int_exact.
    assert ((length ptr - size =? 0) = (length ptr =? size)) as ->.
    { destruct (Z.eqb_spec (length ptr - size) 0),
               (Z.eqb_spec (length ptr) size); try reflexivity; lia. }
    repeat split; try assumption; try reflexivity.
    + destruct (Z.eqb_spec (length ptr) size).
      * apply Forall_app. split; assumption.
      * apply Forall_app. split; [assumption|]. constructor; [|assumption].
        unfold segment_ok, Int.max_signed. simpl. lia.
    + apply Forall_app. split; [assumption|]. constructor; [|constructor].
      unfold segment_ok, Int.max_signed. simpl. lia.
    + intros Hsorted s Hs Ls. rewrite Ea in Hsorted, Hs.
      apply sorted_behind in Hsorted. rewrite Forall_forall in Hsorted, Hprev.
      apply in_app_or in Hs. destruct Hs as [Hs|[<-|Hs]].
      * specialize (Hprev s Hs). simpl in Hprev. lia.
      * lia.
      * specialize (Hsorted s Hs). simpl in Hsorted. lia.
Qed.

Lemma first_fit_carves_low_end_witness :
  let r := requestMemory true 60 sample_holes in
  exists prev ptr next,
    availableSegs sample_holes = prev ++ ptr :: next /\
    Forall (fun p => length p < 60) prev /\
    60 <= length ptr /\
    value r = simulatedHeap sample_holes + startAddr ptr /\
    printed r = [] /\
    occupiedSegs (after r)
    = occupiedSegs sample_holes
      ++ [ {| startAddr := startAddr ptr;
              length := 60;
              memPtr := simulatedHeap sample_holes + startAddr ptr |} ] /\
    availableSegs (after r)
    = (if length ptr =? 60 then prev ++ next
       else prev ++ {| startAddr := startAddr ptr + 60;
                       length := length ptr - 60;
                       memPtr := memPtr ptr |} :: next) /\
    Forall segment_ok (availableSegs (after r)) /\
    Forall segment_ok (occupiedSegs (after r)) /\
    (StronglySorted (fun s t => startAddr s < startAddr t)
                    (availableSegs sample_holes) ->
     forall s, In s (availableSegs sample_holes) -> 60 <= length s ->
               startAddr ptr <= startAddr s).
Proof.
  apply (first_fit_carves_low_end 60 sample_holes).
  - lia.
  - exists {| startAddr := 100; length := 200; memPtr := NULL |}.
    split; [simpl; tauto|simpl; lia].
  - repeat constructor; simpl; unfold Int.max_signed; lia.
  - repeat constructor; simpl; unfold Int.max_signed; lia.
Defined.

(** C3. After any sequence of calls the free list is in strictly ascending
    order of start and each free segment ends strictly before the next one
    starts, so no two free segments touch or overlap and the coalescing pass
    finds nothing left to merge.  The pass itself, on segments of the data
    model: it compares the segment it is on with its successor; when the
    segment's start plus its length is the successor's start it adds the
    successor's length to the segment's, drops the successor and goes on
    from the same, longer, segment; otherwise it keeps the segment as it is
    and goes on from the successor. *)
Theorem free_list_sorted_and_coalesced
        (st : Heap) (ptr temp : MemSegment) (next : list MemSegment)
        (Hst : reachable st)
        (Hptr : segment_ok ptr) (Htemp : segment_ok temp) :
  StronglySorted before (availableSegs st) /\
  combineFreeSegments (availableSegs st) = availableSegs st /\
  combineFreeSegments [] = [] /\
  combineFreeSegments [ptr] = [ptr] /\
  (startAddr ptr + length ptr = startAddr temp ->
   combineFreeSegments (ptr :: temp :: next)
   = combineFreeSegments
       ({| startAddr := startAddr ptr;
           length := length ptr + length temp;
           memPtr := memPtr ptr |} :: next)) /\
  (startAddr ptr + length ptr <> startAddr temp ->
   combineFreeSegments (ptr :: temp :: next)
   = ptr :: combineFreeSegments (temp :: next)).
Proof.
  apply reachable_Inv in Hst. pose proof (inv_free st Hst) as Hsp.
  destruct Hptr as (P1 & P2 & P3). destruct Htemp as (T1 & T2 & T3).
  unfold Int.max_signed in *.
  split; [eapply spaced_sorted; exact Hsp|].
  split.
  { destruct (availableSegs st) as [|x l]; [reflexivity|].
    apply (combineFrom_fixed l 0); [lia|exact Hsp]. }
  split; [reflexivity|]. split; [reflexivity|].
  split; intros E; simpl; int_exact.
  - destruct (Z.eqb_spec (startAddr ptr + length ptr) (startAddr temp));
      [|contradiction].
    int_exact. reflexivity.
  - destruct (Z.eqb_spec (startAddr ptr + length ptr) (startAddr temp));
      [contradiction|reflexivity].
Qed.

Lemma free_list_sorted_and_coalesced_witness :
  let st := run sample_run fresh_heap in
  let ptr := {| startAddr := 0; length := 40; memPtr := 4096 |} in
  let temp := {| startAddr := 40; length := 60; memPtr := 4136 |} in
  let next := [ {| startAddr := 100; length := 200; memPtr := NULL |};
                {| startAddr := 400; length := 8; memPtr := NULL |} ] in
  StronglySorted before (availableSegs st) /\
  combineFreeSegments (availableSegs st) = availableSegs st /\
  combineFreeSegments [] = [] /\
  combineFreeSegments [ptr] = [ptr] /\
  (startAddr ptr + length ptr = startAddr temp ->
   combineFreeSegments (ptr :: temp :: next)
   = combineFreeSegments
       ({| startAddr := startAddr ptr;
           length := length ptr + length temp;
           memPtr := memPtr ptr |} :: next)) /\
  (startAddr ptr + length ptr <> startAddr temp ->
   combineFreeSegments (ptr :: temp :: next)
   = ptr :: combineFreeSegments (temp :: next)).
Proof.
  intros st ptr temp next.
  apply (free_list_sorted_and_coalesced st ptr temp next).
  - exact reachable_sample_run.
  - unfold segment_ok, Int.max_signed. simpl. lia.
  - unfold segment_ok, Int.max_signed. simpl. lia.
Defined.

(** C4. In every state a request of a size that is zero or negative fails
    as [InvalidSize], and a request of a positive size that no free segment
    can hold fails as [OutOfMemory]; both leave the globals as they
    were. *)
Theorem requestMemory_failures (node_ok : bool) (size : Z) (st : Heap) :
  let r := requestMemory node_ok size st in
  (size <= 0 -> alloc_fails InvalidSize r /\ after r = st) /\
  (0 < size ->
   (forall s, In s (availableSegs st) -> length s < size) ->
   alloc_fails OutOfMemory r /\ after r = st).
Proof.
  simpl. split.
  - intros H. rewrite requestMemory_invalid by assumption.
    repeat split.
  - intros H Hall. rewrite requestMemory_exhausted.
    + repeat split.
    + assumption.
    + apply Forall_forall. exact Hall.
Qed.

Lemma requestMemory_failures_witness :
  (alloc_fails InvalidSize (requestMemory true (-5) sample_holes) /\
   after (requestMemory true (-5) sample_holes) = sample_holes) /\
  (alloc_fails OutOfMemory (requestMemory true 201 sample_holes) /\
   after (requestMemory true 201 sample_holes) = sample_holes).
Proof.
  split.
  - apply (requestMemory_failures true (-5) sample_holes). lia.
  - apply (requestMemory_failures true 201 sample_holes); [lia|].
    simpl. intros s [<-|[<-|[<-|[]]]]; simpl; lia.
Defined.

(** C5. In every state a release of the null pointer fails as
    [NullHandle], and a release of a pointer that is not null and is the
    handle of no allocated segment fails as [UnknownHandle]; both leave the
    free and the allocated list as they were. *)
Theorem releaseMemory_failures (p : Z) (st : Heap) :
  let r := releaseMemory p st in
  (p = NULL -> free_fails NullHandle r /\ after r = st) /\
  (p <> NULL ->
   (forall s, In s (occupiedSegs st) -> memPtr s <> p) ->
   free_fails UnknownHandle r /\ after r = st).
Proof.
  simpl. split.
  - intros ->. rewrite releaseMemory_null. split; reflexivity.
  - intros H Hall. rewrite releaseMemory_unknown.
    + split; reflexivity.
    + assumption.
    + apply Forall_forall. exact Hall.
Qed.

Lemma releaseMemory_failures_witness :
  (free_fails NullHandle (releaseMemory 0 sample_holes) /\
   after (releaseMemory 0 sample_holes) = sample_holes) /\
  (free_fails UnknownHandle (releaseMemory 4196 sample_holes) /\
   after (releaseMemory 4196 sample_holes) = sample_holes).
Proof.
  split.
  - apply (releaseMemory_failures 0 sample_holes). reflexivity.
  - apply (releaseMemory_failures 4196 sample_holes).
    + unfold NULL. lia.
    + simpl. intros s [<-|[<-|[<-|[]]]]; simpl; lia.
Defined.

(** C6. In a state reached by calls on a heap that was set up, when a
    request of a positive size succeeds and the handle it returned is
    released right away, the release goes through, the free list has the
    ranges (start and length of each segment, in order) it had before the
    request, and the allocated list is the one from before the request. *)
Theorem allocate_free_round_trip (node_ok : bool) (n : Z) (st : Heap)
        (Hst : reachable st) (Hn : 0 < n)
        (Hsucc : value (requestMemory node_ok n st) <> NULL) :
  let r := requestMemory node_ok n st in
  let r' := releaseMemory (value r) (after r) in
  free_succeeds r' /\
  ranges (availableSegs (after r')) = ranges (availableSegs st) /\
  occupiedSegs (after r') = occupiedSegs st.
Proof.
  apply reachable_Inv in Hst. intros r r'. subst r r'.
  destruct (requestMemory_cases node_ok n st)
    as [(_ & E)|[(_ & _ & E)|(_ & prev & ptr & next & Ea & _ & Hfit & C)]];
    try (rewrite E in Hsucc; simpl in Hsucc; contradiction).
  destruct C as [(_ & E)|(_ & E)];
    [rewrite E in Hsucc; simpl in Hsucc; contradiction|].
  rewrite E. simpl value. simpl after. clear E Hsucc.
  pose proof (inv_base st Hst) as Hbase.
  pose proof (inv_free st Hst) as Hsp. rewrite Ea in Hsp.
  destruct (spaced_elim 1 0 prev ptr next ltac:(lia) Hsp)
    as (P1 & P2 & P3 & Hprev & Hnext).
  pose proof (Inv_free_in_heap st Hst) as Hfree. rewrite Ea in Hfree.
  apply Forall_app in Hfree. destruct Hfree as (Hfree & _).
  unfold CAPACITY in P3.
  set (new := {| startAddr := startAddr ptr; length := n;
                 memPtr := simulatedHeap st + startAddr ptr |}).
  unfold releaseMemory. simpl occupiedSegs. simpl availableSegs.
  simpl simulatedHeap.
  destruct (Z.eqb_spec (simulatedHeap st + startAddr ptr) NULL) as [Z0|_];
    [unfold NULL in Z0; lia|].
  rewrite (walk_stop _ (occupiedSegs st) new []).
  2:{ pose proof (inv_handle st Hst) as Hh. rewrite Forall_forall in Hh.
      apply Forall_forall. intros s Hs. apply negb_true_iff, Z.eqb_neq.
      rewrite (Hh s Hs).
      pose proof (inv_occupied st Hst) as Ho. rewrite Forall_forall in Ho.
      destruct (Ho s Hs) as (O1 & O2 & O3).
      destruct (Inv_disjoint st ptr s Hst) as [D|D];
        [rewrite Ea; apply in_elt|assumption|lia|lia]. }
  2:{ simpl. rewrite Z.eqb_refl. reflexivity. }
  rewrite app_nil_r. int_exact.
  assert (Forall (fun c => (startAddr c <? startAddr new) = true) prev)
    as Hwalk.
  { rewrite Forall_forall in Hprev, Hfree. apply Forall_forall.
    intros c Hc. apply Z.ltb_lt. simpl.
    specialize (Hprev c Hc). destruct (Hfree c Hc) as (_ & F2 & _).
    simpl in Hprev. lia. }
  assert (spaced 1 0 (prev ++ [new])) as Hnew.
  { eapply spaced_last; [exact Hsp|unfold CAPACITY; simpl; lia..]. }
  destruct (Z.eqb_spec (length ptr - n) 0) as [Z0|N0].
  - rewrite walk_at; [|exact Hwalk|].
    2:{ intros c nx ->. apply Z.ltb_ge. simpl.
        simpl in Hnext. lia. }
    simpl. split; [reflexivity|]. split; [|reflexivity].
    rewrite (combineFreeSegments_prefix prev 0) by (lia || assumption).
    rewrite (combineFrom_fixed next 0).
    + unfold ranges. rewrite Ea, !map_app. simpl. repeat f_equal. lia.
    + lia.
    + simpl. unfold CAPACITY. repeat split; try lia.
      replace (startAddr ptr + n + 1) with (startAddr ptr + length ptr + 1)
        by lia.
      exact Hnext.
  - rewrite walk_stop; [|exact Hwalk|apply Z.ltb_ge; simpl; lia].
    simpl. split; [reflexivity|]. split; [|reflexivity].
    rewrite (combineFreeSegments_prefix prev 0) by (lia || assumption).
    simpl. int_exact. rewrite Z.eqb_refl.
    rewrite (combineFrom_fixed next 0).
    + unfold ranges. rewrite Ea, !map_app. simpl. repeat f_equal. lia.
    + lia.
    + simpl. unfold CAPACITY. repeat split; try lia.
      replace (startAddr ptr + (n + (length ptr - n)) + 1)
        with (startAddr ptr + length ptr + 1) by lia.
      exact Hnext.
Qed.

Lemma allocate_free_round_trip_witness :
  let st := run sample_run fresh_heap in
  let r := requestMemory true 944 st in
  let r' := releaseMemory (value r) (after r) in
  free_succeeds r' /\
  ranges (availableSegs (after r')) = ranges (availableSegs st) /\
  occupiedSegs (after r') = occupiedSegs st.
Proof.
  apply (allocate_free_round_trip true 944 (run sample_run fresh_heap)).
  - exact reachable_sample_run.
  - lia.
  - vm_compute. discriminate.
Defined.

(** C7. On a heap that was just set up, with base address [heap], and with
    every node allocated: a request of 100 returns the handle of start 0, a request of 200 the handle of
    start 100; after the first handle is released, a request of 50 is placed
    at start 0 again, in the hole the release left, and not at start 300. *)
Theorem first_fit_reuses_lowest_hole (heap : Z) (st0 : Heap)
        (Hheap : 0 < heap) (Hsetup : setupHeap heap true = Some st0) :
  let rA := requestMemory true 100 st0 in
  let rB := requestMemory true 200 (after rA) in
  let rF := releaseMemory (value rA) (after rB) in
  let rC := requestMemory true 50 (after rF) in
  value rA = heap + 0 /\
  value rB = heap + 100 /\
  free_succeeds rF /\
  ranges (availableSegs (after rF)) = [(0, 100); (300, 724)] /\
  value rC = heap + 0 /\
  value rC <> heap + 300 /\
  occupiedSegs (after rC)
  = [ {| startAddr := 100; length := 200; memPtr := heap + 100 |};
      {| startAddr := 0; length := 50; memPtr := heap + 0 |} ] /\
  ranges (availableSegs (after rC)) = [(50, 50); (300, 724)].
Proof.
  unfold setupHeap in Hsetup.
  destruct (Z.eqb_spec heap NULL) as [E|N]; [unfold NULL in E; lia|].
  simpl in Hsetup. inversion Hsetup; subst st0; clear Hsetup.
  intros rA rB rF rC.
  assert (rA = mkReturned (heap + 0) []
                 {| simulatedHeap := heap;
                    availableSegs :=
                      [ {| startAddr := 100; length := 924; memPtr := NULL |} ];
                    occupiedSegs :=
                      [ {| startAddr := 0; length := 100;
                           memPtr := heap + 0 |} ] |}) as EA
      by reflexivity.
  assert (rB = mkReturned (heap + 100) []
                 {| simulatedHeap := heap;
                    availableSegs :=
                      [ {| startAddr := 300; length := 724; memPtr := NULL |} ];
                    occupiedSegs :=
                      [ {| startAddr := 0; length := 100;
                           memPtr := heap + 0 |};
                        {| startAddr := 100; length := 200;
                           memPtr := heap + 100 |} ] |}) as EB
      by (subst rB; rewrite EA; reflexivity).
  assert (rF = mkReturned tt []
                 {| simulatedHeap := heap;
                    availableSegs :=
                      [ {| startAddr := 0; length := 100;
                           memPtr := heap + 0 |};
                        {| startAddr := 300; length := 724; memPtr := NULL |} ];
                    occupiedSegs :=
                      [ {| startAddr := 100; length := 200;
                           memPtr := heap + 100 |} ] |}) as EF.
  { subst rF. rewrite EA, EB. unfold releaseMemory. simpl value. simpl after.
    destruct (Z.eqb_spec (heap + 0) NULL) as [E|_]; [unfold NULL in E; lia|].
    simpl. rewrite Z.eqb_refl. simpl. reflexivity. }
  assert (rC = mkReturned (heap + 0) []
                 {| simulatedHeap := heap;
                    availableSegs :=
                      [ {| startAddr := 50; length := 50;
                           memPtr := heap + 0 |};
                        {| startAddr := 300; length := 724; memPtr := NULL |} ];
                    occupiedSegs :=
                      [ {| startAddr := 100; length := 200;
                           memPtr := heap + 100 |};
                        {| startAddr := 0; length := 50;
                           memPtr := heap + 0 |} ] |}) as EC
      by (subst rC; rewrite EF; reflexivity).
  rewrite EA, EB, EF, EC. simpl.
  repeat split; try reflexivity. lia.
Qed.

Lemma first_fit_reuses_lowest_hole_witness :
  let rA := requestMemory true 100 fresh_heap in
  let rB := requestMemory true 200 (after rA) in
  let rF := releaseMemory (value rA) (after rB) in
  let rC := requestMemory true 50 (after rF) in
  value rA = 4096 + 0 /\
  value rB = 4096 + 100 /\
  free_succeeds rF /\
  ranges (availableSegs (after rF)) = [(0, 100); (300, 724)] /\
  value rC = 4096 + 0 /\
  value rC <> 4096 + 300 /\
  occupiedSegs (after rC)
  = [ {| startAddr := 100; length := 200; memPtr := 4096 + 100 |};
      {| startAddr := 0; length := 50; memPtr := 4096 + 0 |} ] /\
  ranges (availableSegs (after rC)) = [(50, 50); (300, 724)].
Proof.
  apply (first_fit_reuses_lowest_hole 4096 fresh_heap).
  - lia.
  - reflexivity.
Defined.

(** C8. In a state reached by calls on a heap that was set up, when a
    release of [p] goes through, releasing [p] again right away fails as
    [UnknownHandle] and leaves the free and the allocated list as the first
    release left them. *)
Theorem double_free_fails (p : Z) (st : Heap)
        (Hst : reachable st)
        (Hfirst : free_succeeds (releaseMemory p st)) :
  let st1 := after (releaseMemory p st) in
  free_fails UnknownHandle (releaseMemory p st1) /\
  after (releaseMemory p st1) = st1.
Proof.
  apply reachable_Inv in Hst. unfold free_succeeds in Hfirst.
  destruct (releaseMemory_cases p st)
    as [(_ & E)|[(_ & _ & E)|
        (Hp & prev1 & ptr1 & next1 & prev & curr &
         Eo & _ & Eh & _ & _ & _ & E)]];
    try (rewrite E in Hfirst; discriminate Hfirst).
  rewrite E. simpl. rewrite releaseMemory_unknown.
  - split; reflexivity.
  - assumption.
  - simpl. pose proof (Inv_NoDup_memPtr st Hst) as Hn.
    rewrite Eo, map_app in Hn. simpl in Hn. apply NoDup_remove_2 in Hn.
    apply Forall_forall. intros s Hs Es. apply Hn. rewrite <- map_app.
    rewrite Eh, <- Es. apply in_map. exact Hs.
Qed.

Lemma double_free_fails_witness :
  let st1 := after (releaseMemory 4146 (run sample_run fresh_heap)) in
  free_fails UnknownHandle (releaseMemory 4146 st1) /\
  after (releaseMemory 4146 st1) = st1.
Proof.
  apply (double_free_fails 4146 (run sample_run fresh_heap)).
  - exact reachable_sample_run.
  - reflexivity.
Defined.

(** C9. In a state reached by calls on a heap that was set up, the handle
    of each allocated segment is the heap's base plus the segment's start
    and is not null, and no two allocated segments have the same handle.  A
    request that succeeds returns a handle that no segment allocated before
    it has, and that the new segment has afterwards; a release that goes
    through was given the handle of an allocated segment, and afterwards no
    allocated segment has that handle. *)
Theorem handles_identify_live_segments (st : Heap) (Hst : reachable st) :
  Forall (fun s => memPtr s = simulatedHeap st + startAddr s /\
                   memPtr s <> NULL) (occupiedSegs st) /\
  NoDup (map memPtr (occupiedSegs st)) /\
  (forall node_ok size,
      let r := requestMemory node_ok size st in
      value r <> NULL ->
      ~ In (value r) (map memPtr (occupiedSegs st)) /\
      In (value r) (map memPtr (occupiedSegs (after r)))) /\
  (forall p,
      let r := releaseMemory p st in
      free_succeeds r ->
      In p (map memPtr (occupiedSegs st)) /\
      ~ In p (map memPtr (occupiedSegs (after r)))).
Proof.
  apply reachable_Inv in Hst.
  split; [|split; [|split]].
  - pose proof (inv_handle st Hst) as Hh.
    pose proof (inv_occupied st Hst) as Ho.
    pose proof (inv_base st Hst) as Hb.
    rewrite Forall_forall in Hh, Ho. apply Forall_forall. intros s Hs.
    split; [apply Hh; assumption|]. rewrite (Hh s Hs).
    destruct (Ho s Hs) as (O1 & _). unfold NULL. lia.
  - apply Inv_NoDup_memPtr. assumption.
  - intros node_ok size r Hr. subst r.
    pose proof (Inv_NoDup_memPtr _ (Inv_requestMemory node_ok size st Hst))
      as Hn.
    destruct (requestMemory_cases node_ok size st)
      as [(_ & E)|[(_ & _ & E)|(_ & prev & ptr & next & _ & _ & _ & C)]];
      try (rewrite E in Hr; simpl in Hr; contradiction).
    destruct C as [(_ & E)|(_ & E)];
      [rewrite E in Hr; simpl in Hr; contradiction|].
    rewrite E in *. simpl in *. rewrite map_app in *. simpl in *.
    split.
    + apply NoDup_remove_2 in Hn. rewrite app_nil_r in Hn. exact Hn.
    + apply in_elt.
  - intros p r Hr. subst r. unfold free_succeeds in Hr.
    destruct (releaseMemory_cases p st)
      as [(_ & E)|[(_ & _ & E)|
          (Hp & prev1 & ptr1 & next1 & prev & curr &
           Eo & _ & Eh & _ & _ & _ & E)]];
      try (rewrite E in Hr; discriminate Hr).
    rewrite E. simpl. pose proof (Inv_NoDup_memPtr st Hst) as Hn.
    rewrite Eo, map_app in *. simpl in *. rewrite Eh in *. split.
    + apply in_elt.
    + rewrite map_app. apply NoDup_remove_2 in Hn. exact Hn.
Qed.

Lemma handles_identify_live_segments_witness :
  let st := run sample_run fresh_heap in
  Forall (fun s => memPtr s = simulatedHeap st + startAddr s /\
                   memPtr s <> NULL) (occupiedSegs st) /\
  NoDup (map memPtr (occupiedSegs st)) /\
  (forall node_ok size,
      let r := requestMemory node_ok size st in
      value r <> NULL ->
      ~ In (value r) (map memPtr (occupiedSegs st)) /\
      In (value r) (map memPtr (occupiedSegs (after r)))) /\
  (forall p,
      let r := releaseMemory p st in
      free_succeeds r ->
      In p (map memPtr (occupiedSegs st)) /\
      ~ In p (map memPtr (occupiedSegs (after r)))).
Proof.
  exact (handles_identify_live_segments (run sample_run fresh_heap)
                                        reachable_sample_run).
Defined.

(** C10. A request that succeeds changes the free list at the chosen
    segment only: the segments before it and behind it stay as they are and
    where they are, and the chosen segment is either gone or replaced in
    place.  The allocated list is the old one with the new segment, which
    has the returned handle, the requested size and the chosen segment's
    start, added at the end.  So, on a heap that was set up, the handles of
    the allocated list are handles the calls returned, in the order the
    calls returned them. *)
Theorem allocate_changes_only_chosen_segment
        (node_ok : bool) (size : Z) (st : Heap)
        (heap : Z) (st0 : Heap) (calls : list Call)
        (Hsucc : value (requestMemory node_ok size st) <> NULL)
        (Hheap : 0 < heap) (Hsetup : setupHeap heap true = Some st0) :
  let r := requestMemory node_ok size st in
  (exists prev ptr next new,
      availableSegs st = prev ++ ptr :: next /\
      (availableSegs (after r) = prev ++ next \/
       exists ptr', availableSegs (after r) = prev ++ ptr' :: next) /\
      occupiedSegs (after r) = occupiedSegs st ++ [new] /\
      memPtr new = value r /\
      startAddr new = startAddr ptr /\
      length new = size) /\
  simulatedHeap (after r) = simulatedHeap st /\
  Subsequence (map memPtr (occupiedSegs (run calls st0))) (issued calls st0).
Proof.
  intros r. subst r. split; [|split].
  - destruct (requestMemory_cases node_ok size st)
      as [(_ & E)|[(_ & _ & E)|(_ & prev & ptr & next & Ea & _ & _ & C)]];
      try (rewrite E in Hsucc; simpl in Hsucc; contradiction).
    destruct C as [(_ & E)|(_ & E)];
      [rewrite E in Hsucc; simpl in Hsucc; contradiction|].
    rewrite E. simpl. exists prev, ptr, next. eexists.
    split; [exact Ea|]. split; [|repeat split].
    destruct (Int.sub (length ptr) size =? 0); [left|right; eexists];
      reflexivity.
  - destruct (requestMemory_cases node_ok size st)
      as [(_ & ->)|[(_ & _ & ->)|(_ & prev & ptr & next & _ & _ & _ & C)]];
      try reflexivity.
    destruct C as [(_ & ->)|(_ & ->)]; reflexivity.
  - pose proof (occupied_in_issue_order calls st0
                  (Inv_setupHeap heap true st0 Hheap Hsetup)) as H.
    unfold setupHeap in Hsetup.
    destruct (heap =? NULL); [discriminate|]. simpl in Hsetup.
    inversion Hsetup; subst st0. exact H.
Qed.

Lemma allocate_changes_only_chosen_segment_witness :
  let r := requestMemory true 60 sample_holes in
  (exists prev ptr next new,
      availableSegs sample_holes = prev ++ ptr :: next /\
      (availableSegs (after r) = prev ++ next \/
       exists ptr', availableSegs (after r) = prev ++ ptr' :: next) /\
      occupiedSegs (after r) = occupiedSegs sample_holes ++ [new] /\
      memPtr new = value r /\
      startAddr new = startAddr ptr /\
      length new = 60) /\
  simulatedHeap (after r) = simulatedHeap sample_holes /\
  Subsequence (map memPtr (occupiedSegs (run sample_run fresh_heap)))
              (issued sample_run fresh_heap).
Proof.
  apply (allocate_changes_only_chosen_segment
           true 60 sample_holes 4096 fresh_heap sample_run).
  - vm_compute. discriminate.
  - lia.
  - reflexivity.
Defined.

(** * More of the allocator *)

Section Bytes.

Lemma total_length_app (l1 l2 : list MemSegment) :
  total_length (l1 ++ l2) = total_length l1 + total_length l2.
Proof. induction l1 as [|x l1 IH]; simpl; [reflexivity|]. rewrite IH. lia. Qed.

Lemma total_length_In (s : MemSegment) (l : list MemSegment) :
  Forall in_heap l -> In s l -> length s <= total_length l.
Proof.
  induction 1 as [|x l Hx Hl IH]; simpl; [tauto|].
  assert (0 <= total_length l) as Hpos.
  { clear IH. induction Hl as [|y l Hy _ IHl]; simpl; [lia|].
    destruct Hy as (_ & Hy & _). lia. }
  destruct Hx as (_ & Hx & _). intros [->|Hin]; [lia|].
  specialize (IH Hin). lia.
Qed.

Lemma combineFrom_total (next : list MemSegment) :
  forall lo ptr, 0 <= lo -> spaced 0 lo (ptr :: next) ->
                 total_length (combineFrom ptr next)
                 = total_length (ptr :: next).
Proof.
  induction next as [|temp next IH]; intros lo ptr Hlo H; [reflexivity|].
  simpl in H. destruct H as (H1 & H2 & H3 & H4 & H5 & H6 & H7).
  rewrite Z.add_0_r in *. simpl. int_exact.
  destruct (Z.eqb_spec (startAddr ptr + length ptr) (startAddr temp))
    as [E|N].
  - rewrite (IH lo); [simpl; lia|assumption|].
    simpl. rewrite Z.add_0_r. repeat split; try lia.
    replace (startAddr ptr + (length ptr + length temp))
      with (startAddr temp + length temp) by lia.
    assumption.
  - simpl. rewrite (IH (startAddr ptr + length ptr)); [reflexivity|lia|].
    simpl. rewrite Z.add_0_r. repeat split; assumption.
Qed.

(** The free list with the released node put in, before the pass. *)
Lemma released_ascending (st : Heap)
      (prev1 : list MemSegment) (ptr1 : MemSegment)
      (next1 prev curr : list MemSegment) :
  Inv st ->
  occupiedSegs st = prev1 ++ ptr1 :: next1 ->
  availableSegs st = prev ++ curr ->
  Forall (fun c => startAddr c < startAddr ptr1) prev ->
  (forall c next, curr = c :: next -> startAddr ptr1 <= startAddr c) ->
  spaced 0 0 (prev ++ ptr1 :: curr).
Proof.
  intros H Eo Ea Hprev Hcurr.
  pose proof (inv_occupied st H) as Hocc. rewrite Eo in Hocc.
  apply Forall_app in Hocc. destruct Hocc as (_ & Ho2).
  inversion Ho2 as [|? ? Hq _]; subst.
  apply spaced_insert; try assumption.
  - rewrite <- Ea. apply (inv_free st H).
  - unfold in_heap in Hq. lia.
  - intros f Hf. apply (Inv_disjoint st); [assumption|congruence|].
    rewrite Eo. apply in_elt.
Qed.

Lemma combineFreeSegments_total (l : list MemSegment) :
  spaced 0 0 l -> total_length (combineFreeSegments l) = total_length l.
Proof.
  destruct l as [|x l]; [reflexivity|]. intros H.
  apply (combineFrom_total l 0); [lia|exact H].
Qed.

Lemma combineFreeSegments_cover (a : Z) (l : list MemSegment) :
  spaced 0 0 l -> cover a (combineFreeSegments l) = cover a l.
Proof.
  destruct l as [|x l]; [reflexivity|]. intros H.
  apply (combineFrom_cover a l 0); [lia|exact H].
Qed.

Lemma all_bytes_requestMemory (node_ok : bool) (size : Z) (st : Heap) :
  Inv st -> all_bytes (after (requestMemory node_ok size st)) = all_bytes st.
Proof.
  intros H. unfold all_bytes.
  destruct (requestMemory_cases node_ok size st)
    as [(_ & ->)|[(_ & _ & ->)|(Hs & prev & ptr & next & Ea & _ & Hfit & C)]];
    try reflexivity.
  destruct C as [(_ & ->)|(_ & ->)]; [reflexivity|]. simpl.
  pose proof (inv_free st H) as Hsp. rewrite Ea in Hsp.
  destruct (spaced_elim 1 0 prev ptr next ltac:(lia) Hsp)
    as (P1 & P2 & P3 & _ & _).
  unfold CAPACITY in P3. int_exact. rewrite Ea.
  destruct (Z.eqb_spec (length ptr - size) 0);
    rewrite !total_length_app; simpl; lia.
Qed.

Lemma all_bytes_releaseMemory (p : Z) (st : Heap) :
  Inv st -> all_bytes (after (releaseMemory p st)) = all_bytes st.
Proof.
  intros H. unfold all_bytes.
  destruct (releaseMemory_cases p st)
    as [(_ & ->)|[(_ & _ & ->)|
        (Hp & prev1 & ptr1 & next1 & prev & curr &
         Eo & _ & Eh & Ea & Hprev & Hcurr & ->)]];
    try reflexivity.
  simpl. rewrite combineFreeSegments_total
    by (eapply released_ascending; eassumption).
  rewrite Ea, Eo, !total_length_app. simpl. lia.
Qed.

Lemma all_bytes_run (calls : list Call) :
  forall st, Inv st -> all_bytes (run calls st) = all_bytes st.
Proof.
  induction calls as [|c calls IH]; intros st H; [reflexivity|].
  simpl. destruct c as [size node_ok|p]; simpl.
  - rewrite IH by (apply Inv_requestMemory; assumption).
    apply all_bytes_requestMemory. assumption.
  - rewrite IH by (apply Inv_releaseMemory; assumption).
    apply all_bytes_releaseMemory. assumption.
Qed.

Lemma reachable_all_bytes (st : Heap) : reachable st -> all_bytes st = 1024.
Proof.
  intros (heap & node_ok & st0 & calls & Hh & E & ->).
  rewrite all_bytes_run by (eapply Inv_setupHeap; eassumption).
  unfold setupHeap in E. destruct (heap =? NULL); [discriminate|].
  destruct (negb node_ok); [discriminate|]. inversion E. reflexivity.
Qed.

End Bytes.

Section Effects.

Lemma total_length_nonneg (l : list MemSegment) :
  Forall in_heap l -> 0 <= total_length l.
Proof.
  induction 1 as [|y l Hy _ IHl]; simpl; [lia|].
  destruct Hy as (_ & Hy & _). lia.
Qed.

(** With handles that are all different, a handle names one node. *)
Lemma NoDup_map_In {A B : Type} (f : A -> B) (l : list A) (x y : A) :
  NoDup (map f l) -> In x l -> In y l -> f x = f y -> x = y.
Proof.
  induction l as [|z l IH]; simpl; [tauto|]. intros Hn Hx Hy E.
  inversion Hn as [|? ? Hz Hn']; subst.
  destruct Hx as [->|Hx], Hy as [->|Hy]; try reflexivity.
  - exfalso. apply Hz. rewrite E. apply in_map. assumption.
  - exfalso. apply Hz. rewrite <- E. apply in_map. assumption.
  - apply IH; assumption.
Qed.

Lemma without_handle_split (p : Z) (prev1 : list MemSegment)
      (ptr1 : MemSegment) (next1 : list MemSegment) :
  Forall (fun s => memPtr s <> p) prev1 -> memPtr ptr1 = p ->
  without_handle p (prev1 ++ ptr1 :: next1) = prev1 ++ next1.
Proof.
  intros Hall E. induction Hall as [|x l Hx _ IH]; simpl.
  - rewrite E, Z.eqb_refl. reflexivity.
  - destruct (Z.eqb_spec (memPtr x) p); [contradiction|]. rewrite IH.
    reflexivity.
Qed.

Lemma without_handle_absent (p : Z) (l : list MemSegment) :
  Forall (fun s => memPtr s <> p) l -> without_handle p l = l.
Proof.
  induction 1 as [|x l Hx _ IH]; simpl; [reflexivity|].
  destruct (Z.eqb_spec (memPtr x) p); [contradiction|]. rewrite IH.
  reflexivity.
Qed.

Lemma released_occupied (p : Z) (st : Heap) :
  p <> NULL ->
  occupiedSegs (after (releaseMemory p st))
  = without_handle p (occupiedSegs st).
Proof.
  intros Hp.
  destruct (releaseMemory_cases p st)
    as [(E & _)|[(_ & Hall & ->)|
        (_ & prev1 & ptr1 & next1 & prev & curr &
         Eo & Hall & Eh & _ & _ & _ & ->)]].
  - contradiction.
  - simpl. symmetry. apply without_handle_absent. assumption.
  - simpl. rewrite Eo. symmetry. apply without_handle_split; assumption.
Qed.

End Effects.

(** X1. After any sequence of calls on a heap that was set up, the lengths
    of the free segments and of the allocated segments add up to 1024. *)
Theorem bytes_conserved (st : Heap) (Hst : reachable st) :
  total_length (availableSegs st) + total_length (occupiedSegs st) = 1024.
Proof. apply reachable_all_bytes. assumption. Qed.

Lemma bytes_conserved_witness :
  total_length (availableSegs (run sample_run fresh_heap))
  + total_length (occupiedSegs (run sample_run fresh_heap)) = 1024.
Proof.
  exact (bytes_conserved (run sample_run fresh_heap) reachable_sample_run).
Defined.

(** X2. In a state reached by calls on a heap that was set up, a request
    for more bytes than the free segments have together (so any request for
    more than 1024 bytes, which they never exceed) returns NULL, prints
    nothing and changes nothing. *)
Theorem oversized_request_fails (node_ok : bool) (size : Z) (st : Heap)
        (Hst : reachable st)
        (Hbig : total_length (availableSegs st) < size) :
  let r := requestMemory node_ok size st in
  alloc_fails OutOfMemory r /\ after r = st /\
  total_length (availableSegs st) <= 1024.
Proof.
  pose proof (reachable_all_bytes st Hst) as Hb. unfold all_bytes in Hb.
  apply reachable_Inv in Hst.
  pose proof (Inv_free_in_heap st Hst) as Hfree.
  pose proof (total_length_nonneg _ Hfree) as Hpos.
  pose proof (total_length_nonneg _ (inv_occupied st Hst)) as Hpos'.
  simpl. rewrite requestMemory_exhausted.
  - repeat split. lia.
  - lia.
  - apply Forall_forall. intros s Hs.
    pose proof (total_length_In s _ Hfree Hs). lia.
Qed.

Lemma oversized_request_fails_witness :
  let r := requestMemory true 945 (run sample_run fresh_heap) in
  alloc_fails OutOfMemory r /\ after r = run sample_run fresh_heap /\
  total_length (availableSegs (run sample_run fresh_heap)) <= 1024.
Proof.
  apply (oversized_request_fails true 945 (run sample_run fresh_heap)).
  - exact reachable_sample_run.
  - vm_compute. reflexivity.
Defined.

(** X3. In a state reached by calls on a heap that was set up, the block
    of every allocated segment, from its handle on for its length, lies
    inside the 1024 bytes of the simulated heap, and a request that
    succeeds returns a pointer to [size] bytes inside them. *)
Theorem allocated_blocks_inside_heap (st : Heap) (Hst : reachable st) :
  Forall (fun s => simulatedHeap st <= memPtr s /\
                   memPtr s + length s <= simulatedHeap st + 1024)
         (occupiedSegs st) /\
  (forall node_ok size,
      let r := requestMemory node_ok size st in
      value r <> NULL ->
      simulatedHeap st <= value r /\
      value r + size <= simulatedHeap st + 1024).
Proof.
  apply reachable_Inv in Hst. split.
  - pose proof (inv_handle st Hst) as Hh.
    pose proof (inv_occupied st Hst) as Ho.
    rewrite Forall_forall in Hh, Ho. apply Forall_forall. intros s Hs.
    rewrite (Hh s Hs). destruct (Ho s Hs) as (O1 & O2 & O3).
    unfold CAPACITY in O3. lia.
  - intros node_ok size r Hr. subst r.
    destruct (requestMemory_cases node_ok size st)
      as [(_ & E)|[(_ & _ & E)|(Hs & prev & ptr & next & Ea & _ & Hfit & C)]];
      try (rewrite E in Hr; simpl in Hr; contradiction).
    destruct C as [(_ & E)|(_ & E)];
      [rewrite E in Hr; simpl in Hr; contradiction|].
    rewrite E. simpl.
    pose proof (inv_free st Hst) as Hsp. rewrite Ea in Hsp.
    destruct (spaced_elim 1 0 prev ptr next ltac:(lia) Hsp)
      as (P1 & P2 & P3 & _ & _).
    unfold CAPACITY in P3. lia.
Qed.

Lemma allocated_blocks_inside_heap_witness :
  let st := run sample_run fresh_heap in
  Forall (fun s => simulatedHeap st <= memPtr s /\
                   memPtr s + length s <= simulatedHeap st + 1024)
         (occupiedSegs st) /\
  (forall node_ok size,
      let r := requestMemory node_ok size st in
      value r <> NULL ->
      simulatedHeap st <= value r /\
      value r + size <= simulatedHeap st + 1024).
Proof.
  exact (allocated_blocks_inside_heap (run sample_run fresh_heap)
                                      reachable_sample_run).
Defined.

(** X4. In a state reached by calls on a heap that was set up, a request
    returns a pointer that is not NULL exactly when the size is positive,
    some free segment is at least that long and the node for the new
    segment could be allocated. *)
Theorem request_succeeds_iff (node_ok : bool) (size : Z) (st : Heap)
        (Hst : reachable st) :
  value (requestMemory node_ok size st) <> NULL <->
  node_ok = true /\ 0 < size /\
  exists s, In s (availableSegs st) /\ size <= length s.
Proof.
  apply reachable_Inv in Hst.
  destruct (requestMemory_cases node_ok size st)
    as [(Hs & E)|[(Hs & Hall & E)|
        (Hs & prev & ptr & next & Ea & _ & Hfit & C)]].
  - rewrite E. simpl. split; [contradiction|]. intros (_ & H & _). lia.
  - rewrite E. simpl. split; [contradiction|]. intros (_ & _ & s & Hin & Hl).
    rewrite Forall_forall in Hall. specialize (Hall s Hin). simpl in Hall.
    lia.
  - destruct C as [(C & E)|(C & E)]; rewrite E; simpl.
    + split; [contradiction|]. intros (C' & _). congruence.
    + pose proof (inv_free st Hst) as Hsp. rewrite Ea in Hsp.
      destruct (spaced_elim 1 0 prev ptr next ltac:(lia) Hsp) as (P1 & _).
      pose proof (inv_base st Hst) as Hb. split.
      * intros _. repeat split; try assumption. exists ptr.
        split; [rewrite Ea; apply in_elt|assumption].
      * intros _. unfold NULL. lia.
Qed.

Lemma request_succeeds_iff_witness :
  value (requestMemory true 944 (run sample_run fresh_heap)) <> NULL <->
  true = true /\ 0 < 944 /\
  exists s, In s (availableSegs (run sample_run fresh_heap)) /\
            944 <= length s.
Proof.
  exact (request_succeeds_iff true 944 (run sample_run fresh_heap)
                              reachable_sample_run).
Defined.

(** X5. In every state a release goes through without an error line
    exactly when the pointer is not NULL and is the handle of an allocated
    segment; and whenever the pointer is not NULL, the allocated list
    afterwards is the old one without the first node that has this handle,
    the other nodes in their order. *)
Theorem release_succeeds_iff (p : Z) (st : Heap) :
  (free_succeeds (releaseMemory p st) <->
   p <> NULL /\ exists s, In s (occupiedSegs st) /\ memPtr s = p) /\
  (p <> NULL ->
   occupiedSegs (after (releaseMemory p st))
   = without_handle p (occupiedSegs st)).
Proof.
  split; [|apply released_occupied].
  unfold free_succeeds.
  destruct (releaseMemory_cases p st)
    as [(Hp & E)|[(Hp & Hall & E)|
        (Hp & prev1 & ptr1 & next1 & prev & curr &
         Eo & _ & Eh & _ & _ & _ & E)]]; rewrite E; simpl.
  - split; [discriminate|]. intros (H & _). contradiction.
  - split; [discriminate|]. intros (_ & s & Hs & Es).
    rewrite Forall_forall in Hall. elim (Hall s Hs Es).
  - split; [|reflexivity]. intros _. split; [assumption|].
    exists ptr1. split; [rewrite Eo; apply in_elt|assumption].
Qed.

Lemma release_succeeds_iff_witness :
  (free_succeeds (releaseMemory 4396 sample_holes) <->
   4396 <> NULL /\
   exists s, In s (occupiedSegs sample_holes) /\ memPtr s = 4396) /\
  (4396 <> NULL ->
   occupiedSegs (after (releaseMemory 4396 sample_holes))
   = without_handle 4396 (occupiedSegs sample_holes)).
Proof.
  exact (release_succeeds_iff 4396 sample_holes).
Defined.

(** X6. In a state reached by calls on a heap that was set up, releasing
    the handle of an allocated segment goes through, takes exactly that
    segment out of the allocated list, makes every address of it free and
    no other, and raises the bytes of the free list by its length. *)
Theorem release_frees_the_segment (s : MemSegment) (st : Heap)
        (Hst : reachable st) (Hs : In s (occupiedSegs st)) :
  let r := releaseMemory (memPtr s) st in
  free_succeeds r /\
  (exists l1 l2, occupiedSegs st = l1 ++ s :: l2 /\
                 occupiedSegs (after r) = l1 ++ l2) /\
  (forall a, cover a (availableSegs (after r))
             = (cover a (availableSegs st)
                + if covers a s then 1 else 0)%nat) /\
  total_length (availableSegs (after r))
  = total_length (availableSegs st) + length s.
Proof.
  apply reachable_Inv in Hst. intros r. subst r. unfold free_succeeds.
  pose proof (inv_handle st Hst) as Hh. pose proof (inv_occupied st Hst) as Ho.
  pose proof (inv_base st Hst) as Hb. rewrite Forall_forall in Hh, Ho.
  destruct (releaseMemory_cases (memPtr s) st)
    as [(Hp & _)|[(_ & Hall & _)|
        (_ & prev1 & ptr1 & next1 & prev & curr &
         Eo & _ & Eh & Ea & Hprev & Hcurr & E)]].
  - exfalso. rewrite (Hh s Hs) in Hp. destruct (Ho s Hs) as (O1 & _).
    unfold NULL in Hp. lia.
  - exfalso. rewrite Forall_forall in Hall. exact (Hall s Hs eq_refl).
  - assert (ptr1 = s) as ->.
    { apply (NoDup_map_In memPtr (occupiedSegs st)); try assumption.
      - apply Inv_NoDup_memPtr. assumption.
      - rewrite Eo. apply in_elt. }
    pose proof (released_ascending st prev1 s next1 prev curr
                                   Hst Eo Ea Hprev Hcurr) as Hasc.
    rewrite E. simpl. split; [reflexivity|]. split; [|split].
    + exists prev1, next1. split; [assumption|reflexivity].
    + intros a. rewrite combineFreeSegments_cover by assumption.
      rewrite Ea, !cover_app, cover_cons. lia.
    + rewrite combineFreeSegments_total by assumption.
      rewrite Ea, !total_length_app. simpl. lia.
Qed.

Lemma release_frees_the_segment_witness :
  let s := {| startAddr := 50; length := 30; memPtr := 4146 |} in
  let st := run sample_run fresh_heap in
  let r := releaseMemory (memPtr s) st in
  free_succeeds r /\
  (exists l1 l2, occupiedSegs st = l1 ++ s :: l2 /\
                 occupiedSegs (after r) = l1 ++ l2) /\
  (forall a, cover a (availableSegs (after r))
             = (cover a (availableSegs st)
                + if covers a s then 1 else 0)%nat) /\
  total_length (availableSegs (after r))
  = total_length (availableSegs st) + length s.
Proof.
  apply (release_frees_the_segment
           {| startAddr := 50; length := 30; memPtr := 4146 |}
           (run sample_run fresh_heap)).
  - exact reachable_sample_run.
  - vm_compute. right. left. reflexivity.
Defined.

Section Canonical.

Lemma cover_below (gap lo a : Z) (l : list MemSegment) :
  0 <= gap -> spaced gap lo l -> a < lo -> cover a l = 0%nat.
Proof.
  intros Hg. revert lo. induction l as [|x l IH]; intros lo H Ha;
    [reflexivity|].
  simpl in H. destruct H as (H1 & H2 & H3 & H4).
  rewrite cover_cons, (IH _ H4) by lia. unfold covers.
  destruct (Z.leb_spec (startAddr x) a); [lia|reflexivity].
Qed.

(** Two lists of segments in ascending order, none touching the next, that
    hold the same addresses have the same ranges. *)
Lemma spaced_unique (l1 : list MemSegment) :
  forall l2 lo,
    spaced 1 lo l1 -> spaced 1 lo l2 ->
    (forall a, cover a l1 = cover a l2) ->
    ranges l1 = ranges l2.
Proof.
  induction l1 as [|x1 l1 IH]; intros [|x2 l2] lo H1 H2 Hc.
  - reflexivity.
  - exfalso. specialize (Hc (startAddr x2)). simpl in H2.
    rewrite cover_nil, cover_cons in Hc.
    assert (covers (startAddr x2) x2 = true) as C
        by (apply covers_iff; lia).
    rewrite C in Hc. discriminate.
  - exfalso. specialize (Hc (startAddr x1)). simpl in H1.
    rewrite cover_nil, cover_cons in Hc.
    assert (covers (startAddr x1) x1 = true) as C
        by (apply covers_iff; lia).
    rewrite C in Hc. discriminate.
  - pose proof H1 as (A1 & A2 & A3 & A4). pose proof H2 as (B1 & B2 & B3 & B4).
    assert (startAddr x1 = startAddr x2) as Es.
    { destruct (Z.lt_trichotomy (startAddr x1) (startAddr x2))
        as [L|[E|L]]; [exfalso|exact E|exfalso].
      - specialize (Hc (startAddr x1)).
        rewrite (cover_below 1 (startAddr x2) _ (x2 :: l2)) in Hc;
          [|lia|simpl; intuition lia|lia].
        rewrite cover_cons in Hc.
        assert (covers (startAddr x1) x1 = true) as C
            by (apply covers_iff; lia).
        rewrite C in Hc. discriminate.
      - specialize (Hc (startAddr x2)).
        rewrite (cover_below 1 (startAddr x1) _ (x1 :: l1)) in Hc;
          [|lia|simpl; intuition lia|lia].
        rewrite cover_cons in Hc.
        assert (covers (startAddr x2) x2 = true) as C
            by (apply covers_iff; lia).
        rewrite C in Hc. discriminate. }
    assert (length x1 = length x2) as El.
    { destruct (Z.lt_trichotomy (length x1) (length x2))
        as [L|[E|L]]; [exfalso|exact E|exfalso].
      - specialize (Hc (startAddr x1 + length x1)).
        rewrite !cover_cons in Hc.
        rewrite (cover_below 1 _ _ l1 ltac:(lia) A4) in Hc by lia.
        assert (covers (startAddr x1 + length x1) x1 = false) as C1.
        { unfold covers. destruct (Z.ltb_spec (startAddr x1 + length x1)
                                              (startAddr x1 + length x1));
            [lia|apply andb_false_r]. }
        assert (covers (startAddr x1 + length x1) x2 = true) as C2
            by (apply covers_iff; lia).
        rewrite C1, C2 in Hc. simpl in Hc. lia.
      - specialize (Hc (startAddr x2 + length x2)).
        rewrite !cover_cons in Hc.
        rewrite (cover_below 1 _ _ l2 ltac:(lia) B4) in Hc by lia.
        assert (covers (startAddr x2 + length x2) x2 = false) as C1.
        { unfold covers. destruct (Z.ltb_spec (startAddr x2 + length x2)
                                              (startAddr x2 + length x2));
            [lia|apply andb_false_r]. }
        assert (covers (startAddr x2 + length x2) x1 = true) as C2
            by (apply covers_iff; lia).
        rewrite C1, C2 in Hc. simpl in Hc. lia. }
    unfold ranges. simpl. rewrite Es, El. f_equal.
    apply (IH l2 (startAddr x1 + length x1 + 1)).
    + exact A4.
    + rewrite Es, El. exact B4.
    + intros a. specialize (Hc a). rewrite !cover_cons in Hc.
      unfold covers in Hc. rewrite Es, El in Hc. lia.
Qed.

(** The free ranges are a function of the addresses allocated. *)
Lemma Inv_free_determined (st1 st2 : Heap) :
  Inv st1 -> Inv st2 ->
  (forall a, cover a (occupiedSegs st1) = cover a (occupiedSegs st2)) ->
  ranges (availableSegs st1) = ranges (availableSegs st2).
Proof.
  intros H1 H2 Hc. apply (spaced_unique _ _ 0).
  - apply (inv_free st1 H1).
  - apply (inv_free st2 H2).
  - intros a. pose proof (inv_cover st1 H1 a) as C1.
    pose proof (inv_cover st2 H2 a) as C2.
    rewrite cover_app in C1, C2. specialize (Hc a). lia.
Qed.

Lemma without_handle_comm (p q : Z) (l : list MemSegment) :
  without_handle q (without_handle p l)
  = without_handle p (without_handle q l).
Proof.
  induction l as [|x l IH]; simpl; [reflexivity|].
  destruct (Z.eqb_spec (memPtr x) p) as [Ep|Np],
           (Z.eqb_spec (memPtr x) q) as [Eq|Nq]; simpl.
  - congruence.
  - destruct (Z.eqb_spec (memPtr x) p); [reflexivity|contradiction].
  - destruct (Z.eqb_spec (memPtr x) q); [reflexivity|contradiction].
  - destruct (Z.eqb_spec (memPtr x) p); [contradiction|].
    destruct (Z.eqb_spec (memPtr x) q); [contradiction|].
    rewrite IH. reflexivity.
Qed.

(** A segment of the allocated list holds each address at most once, and
    holds it exactly when some node of the list does. *)
Lemma cover_occupied_iff (st : Heap) (a : Z) :
  Inv st ->
  (cover a (occupiedSegs st) = 1%nat <->
   exists s, In s (occupiedSegs st) /\ covers a s = true) /\
  (cover a (occupiedSegs st) <= 1)%nat.
Proof.
  intros H. pose proof (Inv_cover_le st a H) as Hc.
  rewrite cover_app in Hc. split; [split|lia].
  - intros E. apply cover_exists. lia.
  - intros (s & Hs & Cs). pose proof (cover_In a s _ Hs Cs). lia.
Qed.

End Canonical.

Section Settled.

Lemma combineFrom_head (next : list MemSegment) :
  forall ptr, exists h rest,
      combineFrom ptr next = h :: rest /\ startAddr h = startAddr ptr.
Proof.
  induction next as [|temp next IH]; intros ptr; simpl.
  - exists ptr, []. split; reflexivity.
  - destruct (Int.add (startAddr ptr) (length ptr) =? startAddr temp).
    + destruct (IH {| startAddr := startAddr ptr;
                      length := Int.add (length ptr) (length temp);
                      memPtr := memPtr ptr |}) as (h & rest & E & Eh).
      exists h, rest. split; assumption.
    + exists ptr, (combineFrom temp next). split; reflexivity.
Qed.

Lemma combineFrom_settled (next : list MemSegment) :
  forall ptr, settled (combineFrom ptr next).
Proof.
  induction next as [|temp next IH]; intros ptr; simpl; [tauto|].
  destruct (Z.eqb_spec (Int.add (startAddr ptr) (length ptr))
                       (startAddr temp)) as [E|N].
  - apply IH.
  - destruct (combineFrom_head next temp) as (h & rest & Eh & Es).
    specialize (IH temp). rewrite Eh in *. simpl. split; [|exact IH].
    rewrite Es. exact N.
Qed.

Lemma settled_combineFrom (next : list MemSegment) :
  forall ptr, settled (ptr :: next) -> combineFrom ptr next = ptr :: next.
Proof.
  induction next as [|temp next IH]; intros ptr H; [reflexivity|].
  destruct H as (N & H). simpl.
  destruct (Z.eqb_spec (Int.add (startAddr ptr) (length ptr))
                       (startAddr temp)); [contradiction|].
  rewrite IH by exact H. reflexivity.
Qed.

Lemma combineFrom_length (next : list MemSegment) :
  forall ptr, (List.length (combineFrom ptr next) <= S (List.length next))%nat.
Proof.
  induction next as [|temp next IH]; intros ptr; simpl; [lia|].
  destruct (Int.add (startAddr ptr) (length ptr) =? startAddr temp).
  - specialize (IH {| startAddr := startAddr ptr;
                      length := Int.add (length ptr) (length temp);
                      memPtr := memPtr ptr |}). lia.
  - simpl. specialize (IH temp). lia.
Qed.

End Settled.

Section Holes.

(** Free segments are kept apart by allocated ones: behind each free
    segment but the last lies an allocated segment of its own. *)
Lemma free_nodes_bounded (l : list MemSegment) :
  forall lo occ,
    spaced 1 lo l ->
    (forall a, lo <= a < CAPACITY -> (cover a l + cover a occ = 1)%nat) ->
    (List.length l <= S (List.length occ))%nat.
Proof.
  induction l as [|x l IH]; intros lo occ H Hc; [simpl; lia|].
  destruct l as [|y l]; [simpl; lia|].
  pose proof H as (X1 & X2 & X3 & H').
  pose proof H' as (Y1 & Y2 & Y3 & H'').
  assert (exists s, In s occ /\ covers (startAddr x + length x) s = true)
    as (s & Hs & Cs).
  { apply cover_exists. specialize (Hc (startAddr x + length x)).
    rewrite cover_cons in Hc.
    rewrite (cover_below 1 _ _ (y :: l) ltac:(lia) H') in Hc by lia.
    assert (covers (startAddr x + length x) x = false) as C.
    { unfold covers. destruct (Z.ltb_spec (startAddr x + length x)
                                          (startAddr x + length x));
        [lia|apply andb_false_r]. }
    rewrite C in Hc. simpl in Hc. rewrite <- Hc; [lia|lia]. }
  apply covers_iff in Cs.
  assert (startAddr s + length s <= startAddr y) as Hend.
  { destruct (Z_le_gt_dec (startAddr s + length s) (startAddr y)) as [|G];
      [assumption|exfalso].
    specialize (Hc (startAddr y) ltac:(lia)).
    rewrite !cover_cons in Hc.
    assert (covers (startAddr y) y = true) as Cy by (apply covers_iff; lia).
    assert (covers (startAddr y) s = true) as Cs' by (apply covers_iff; lia).
    pose proof (cover_In _ _ _ Hs Cs'). rewrite Cy in Hc. lia. }
  destruct (in_split _ _ Hs) as (o1 & o2 & ->).
  rewrite length_app. simpl.
  specialize (IH (startAddr y) (o1 ++ o2)).
  rewrite length_app in IH. simpl in IH.
  assert (List.length (y :: l) <= S (List.length o1 + List.length o2))%nat;
    [|simpl in *; lia].
  apply IH.
  - simpl. repeat split; try assumption. lia.
  - intros a Ha. specialize (Hc a ltac:(lia)).
    rewrite (cover_cons a x), cover_app, (cover_cons a s) in Hc.
    rewrite cover_app.
    assert (covers a x = false) as C1.
    { unfold covers. destruct (Z.ltb_spec a (startAddr x + length x));
        [lia|apply andb_false_r]. }
    assert (covers a s = false) as C2.
    { unfold covers. destruct (Z.ltb_spec a (startAddr s + length s));
        [lia|apply andb_false_r]. }
    rewrite C1, C2 in Hc. lia.
Qed.

End Holes.

Section BackToBack.

Lemma placed_requests (heap : Z) (sizes : list Z) :
  forall start st,
    0 < heap -> 0 <= start -> start + sum_sizes sizes <= 1024 ->
    Forall (fun size => 0 < size) sizes ->
    simulatedHeap st = heap ->
    (start < 1024 ->
     exists m, availableSegs st
               = [ {| startAddr := start; length := 1024 - start;
                      memPtr := m |} ]) ->
    (1024 <= start -> availableSegs st = []) ->
    let calls := map (fun size => Allocate size true) sizes in
    issued calls st = map memPtr (placed heap start sizes) /\
    occupiedSegs (run calls st)
    = occupiedSegs st ++ placed heap start sizes /\
    ranges (availableSegs (run calls st))
    = (if start + sum_sizes sizes <? 1024
       then [(start + sum_sizes sizes, 1024 - (start + sum_sizes sizes))]
       else []).
Proof.
  induction sizes as [|size sizes IH];
    intros start st Hh Hs Hsum Hpos Eb Elt Ege.
  - simpl. rewrite app_nil_r, Z.add_0_r. repeat split.
    destruct (Z.ltb_spec start 1024) as [L|G].
    + destruct (Elt L) as (m & ->). reflexivity.
    + rewrite (Ege G). reflexivity.
  - inversion Hpos as [|? ? Hsize Hpos']; subst.
    change (start + (size + sum_sizes sizes) <= 1024) in Hsum.
    assert (0 <= sum_sizes sizes) as Hnn.
    { clear -Hpos'. induction Hpos'; simpl; lia. }
    destruct (Elt ltac:(lia)) as (m & El). clear Elt Ege.
    assert (requestMemory true size st
            = mkReturned (simulatedHeap st + start) []
                {| simulatedHeap := simulatedHeap st;
                   availableSegs :=
                     if 1024 - start - size =? 0 then []
                     else [ {| startAddr := start + size;
                               length := 1024 - start - size;
                               memPtr := m |} ];
                   occupiedSegs :=
                     occupiedSegs st
                     ++ [ {| startAddr := start; length := size;
                             memPtr := simulatedHeap st + start |} ] |})
      as Er.
    { unfold requestMemory. rewrite El.
      destruct (Z.leb_spec size 0); [lia|].
      match goal with
      | |- context [walk ?c ?l] =>
          assert (walk c l = ([], l)) as ->
      end.
      { apply (walk_stop _ [] _ []); [constructor|].
        cbn [length]. rewrite Z.gtb_ltb. apply Z.ltb_ge. lia. }
      cbn [negb app length startAddr memPtr]. int_exact. reflexivity. }
    cbn [map issued run fold_left call placed].
    rewrite Er. cbn [value after].
    destruct (Z.eqb_spec (simulatedHeap st + start) NULL) as [Z0|_];
      [unfold NULL in Z0; lia|].
    match goal with
    | |- context [fold_left call _ ?s] => set (st' := s)
    end.
    destruct (IH (start + size) st') as (I1 & I2 & I3);
      try assumption; try lia; try reflexivity.
    { intros L. subst st'. cbn [availableSegs].
      destruct (Z.eqb_spec (1024 - start - size) 0); [lia|].
      exists m. replace (1024 - (start + size)) with (1024 - start - size)
        by lia. reflexivity. }
    { intros G. subst st'. cbn [availableSegs].
      destruct (Z.eqb_spec (1024 - start - size) 0); [reflexivity|lia]. }
    unfold run in *. cbn zeta in *.
    change (sum_sizes (size :: sizes)) with (size + sum_sizes sizes).
    split; [|split].
    + rewrite I1. reflexivity.
    + rewrite I2. subst st'. cbn [occupiedSegs]. rewrite <- app_assoc.
      reflexivity.
    + rewrite I3. rewrite !Z.add_assoc. reflexivity.
Qed.

End BackToBack.

(** X7. Two states reached by calls on heaps that were set up, in which
    the same addresses are allocated, have the same free ranges (start and
    length of each free segment, in order): the free list depends on what
    is allocated, not on the calls that led there. *)
Theorem free_list_determined (st1 st2 : Heap)
        (H1 : reachable st1) (H2 : reachable st2)
        (Hsame : forall a,
            (exists s, In s (occupiedSegs st1) /\ covers a s = true) <->
            (exists s, In s (occupiedSegs st2) /\ covers a s = true)) :
  ranges (availableSegs st1) = ranges (availableSegs st2).
Proof.
  apply reachable_Inv in H1, H2. apply Inv_free_determined; try assumption.
  intros a. destruct (cover_occupied_iff st1 a H1) as (E1 & L1).
  destruct (cover_occupied_iff st2 a H2) as (E2 & L2).
  specialize (Hsame a). rewrite <- E1, <- E2 in Hsame.
  destruct (cover a (occupiedSegs st1)) as [|[|n1]],
           (cover a (occupiedSegs st2)) as [|[|n2]]; try lia;
    destruct Hsame as (F & G); try (specialize (F eq_refl); lia);
    try (specialize (G eq_refl); lia).
Qed.

Lemma free_list_determined_witness :
  ranges (availableSegs (run sample_run fresh_heap))
  = ranges (availableSegs
              (run [Allocate 80 true; Allocate 10 true; Free 4176]
                   fresh_heap)).
Proof.
  apply (free_list_determined
           (run sample_run fresh_heap)
           (run [Allocate 80 true; Allocate 10 true; Free 4176] fresh_heap)).
  - exact reachable_sample_run.
  - exists 4096, true, fresh_heap,
      [Allocate 80 true; Allocate 10 true; Free 4176].
    split; [lia|]. split; reflexivity.
  - intros a. vm_compute occupiedSegs. split.
    + intros (s & Hs & Cs).
      exists {| startAddr := 0; length := 80; memPtr := 4096 |}.
      split; [now left|]. apply covers_iff. simpl.
      destruct Hs as [<-|[<-|[]]]; apply covers_iff in Cs; simpl in Cs; lia.
    + intros (s & Hs & Cs). destruct Hs as [<-|[]].
      apply covers_iff in Cs. simpl in Cs.
      destruct (Z_lt_ge_dec a 50).
      * exists {| startAddr := 0; length := 50; memPtr := 4096 |}.
        split; [now left|]. apply covers_iff. simpl. lia.
      * exists {| startAddr := 50; length := 30; memPtr := 4146 |}.
        split; [right; now left|]. apply covers_iff. simpl. lia.
Defined.

(** X8. In a state reached by calls on a heap that was set up, when
    nothing is allocated the free list is one segment from 0 of length
    1024: releasing everything leaves no fragmentation behind. *)
Theorem all_released_one_segment (st : Heap)
        (Hst : reachable st) (Hnone : occupiedSegs st = []) :
  ranges (availableSegs st) = [(0, 1024)].
Proof.
  apply reachable_Inv in Hst.
  change [(0, 1024)]
    with (ranges [ {| startAddr := 0; length := 1024; memPtr := NULL |} ]).
  apply (spaced_unique _ _ 0).
  - apply (inv_free st Hst).
  - simpl. unfold CAPACITY. lia.
  - intros a. pose proof (inv_cover st Hst a) as Hc.
    rewrite Hnone, app_nil_r in Hc. rewrite Hc, cover_cons, cover_nil.
    unfold covers, CAPACITY. simpl.
    destruct ((0 <=? a) && (a <? 1024)); reflexivity.
Qed.

Lemma all_released_one_segment_witness :
  ranges (availableSegs
            (run [Allocate 100 true; Allocate 200 true; Allocate 724 true;
                  Free 4196; Free 4396; Free 4096] fresh_heap))
  = [(0, 1024)].
Proof.
  apply all_released_one_segment.
  - exists 4096, true, fresh_heap,
      [Allocate 100 true; Allocate 200 true; Allocate 724 true;
       Free 4196; Free 4396; Free 4096].
    split; [lia|]. split; reflexivity.
  - reflexivity.
Defined.

(** X9. In a state reached by calls on a heap that was set up, two
    releases give the same allocated list and the same free ranges in
    either order. *)
Theorem releases_commute (p q : Z) (st : Heap) (Hst : reachable st) :
  let pq := after (releaseMemory q (after (releaseMemory p st))) in
  let qp := after (releaseMemory p (after (releaseMemory q st))) in
  occupiedSegs pq = occupiedSegs qp /\
  ranges (availableSegs pq) = ranges (availableSegs qp).
Proof.
  apply reachable_Inv in Hst. intros pq qp.
  assert (occupiedSegs pq = occupiedSegs qp) as Eo.
  { subst pq qp.
    destruct (Z.eq_dec p NULL) as [->|Np];
      [rewrite !releaseMemory_null; reflexivity|].
    destruct (Z.eq_dec q NULL) as [->|Nq];
      [rewrite !releaseMemory_null; reflexivity|].
    rewrite !released_occupied by assumption.
    apply without_handle_comm. }
  split; [exact Eo|].
  apply Inv_free_determined.
  - subst pq. apply Inv_releaseMemory, Inv_releaseMemory. assumption.
  - subst qp. apply Inv_releaseMemory, Inv_releaseMemory. assumption.
  - intros a. rewrite Eo. reflexivity.
Qed.

Lemma releases_commute_witness :
  let st := run sample_run fresh_heap in
  let pq := after (releaseMemory 4146 (after (releaseMemory 4096 st))) in
  let qp := after (releaseMemory 4096 (after (releaseMemory 4146 st))) in
  occupiedSegs pq = occupiedSegs qp /\
  ranges (availableSegs pq) = ranges (availableSegs qp).
Proof.
  exact (releases_commute 4096 4146 (run sample_run fresh_heap)
                          reachable_sample_run).
Defined.

(** X10. On every list, [combineFreeSegments] leaves a list in which no
    node's start plus length is the start of the node behind it, a second
    pass changes nothing, and the list does not get longer. *)
Theorem coalescing_is_idempotent (segs : list MemSegment) :
  settled (combineFreeSegments segs) /\
  combineFreeSegments (combineFreeSegments segs) = combineFreeSegments segs /\
  (List.length (combineFreeSegments segs) <= List.length segs)%nat.
Proof.
  destruct segs as [|ptr next]; [simpl; auto|].
  pose proof (combineFrom_settled next ptr) as Hs.
  split; [exact Hs|]. split; [|apply combineFrom_length].
  simpl. destruct (combineFrom ptr next) as [|h rest]; [reflexivity|].
  simpl. apply settled_combineFrom. exact Hs.
Qed.

(** X11. In a state reached by calls on a heap that was set up, there is
    at most one free segment more than there are allocated segments. *)
Theorem free_segments_bounded (st : Heap) (Hst : reachable st) :
  (List.length (availableSegs st) <= List.length (occupiedSegs st) + 1)%nat.
Proof.
  apply reachable_Inv in Hst.
  pose proof (free_nodes_bounded (availableSegs st) 0 (occupiedSegs st)
                                 (inv_free st Hst)) as H.
  rewrite Nat.add_1_r. apply H. intros a Ha.
  pose proof (inv_cover st Hst a) as Hc. rewrite cover_app in Hc.
  destruct (Z.leb_spec 0 a), (Z.ltb_spec a CAPACITY); simpl in Hc; lia.
Qed.

Lemma free_segments_bounded_witness :
  (List.length (availableSegs (run sample_run fresh_heap))
   <= List.length (occupiedSegs (run sample_run fresh_heap)) + 1)%nat.
Proof.
  exact (free_segments_bounded (run sample_run fresh_heap)
                               reachable_sample_run).
Defined.

(** X12. On a heap that was just set up, requests of positive sizes that
    add up to at most 1024, each with its node allocated, all succeed and
    are placed back to back from offset 0: each handle is the base address
    plus the sizes requested before, the allocated list holds the segments
    in the order of the requests, and what is left is one free segment
    behind them, or none when the sizes add up to 1024. *)
Theorem fresh_requests_back_to_back
        (heap : Z) (st0 : Heap) (sizes : list Z)
        (Hheap : 0 < heap) (Hsetup : setupHeap heap true = Some st0)
        (Hpos : Forall (fun size => 0 < size) sizes)
        (Hsum : sum_sizes sizes <= 1024) :
  let calls := map (fun size => Allocate size true) sizes in
  issued calls st0 = map memPtr (placed heap 0 sizes) /\
  occupiedSegs (run calls st0) = placed heap 0 sizes /\
  ranges (availableSegs (run calls st0))
  = (if sum_sizes sizes <? 1024
     then [(sum_sizes sizes, 1024 - sum_sizes sizes)]
     else []).
Proof.
  unfold setupHeap in Hsetup.
  destruct (heap =? NULL); [discriminate|]. simpl in Hsetup.
  inversion Hsetup; subst st0; clear Hsetup.
  apply (placed_requests heap sizes 0); try assumption; try lia;
    try reflexivity.
  intros _. eexists. reflexivity.
Qed.

Lemma fresh_requests_back_to_back_witness :
  let calls := map (fun size => Allocate size true) [100; 200; 724] in
  issued calls fresh_heap = map memPtr (placed 4096 0 [100; 200; 724]) /\
  occupiedSegs (run calls fresh_heap) = placed 4096 0 [100; 200; 724] /\
  ranges (availableSegs (run calls fresh_heap))
  = (if sum_sizes [100; 200; 724] <? 1024
     then [(sum_sizes [100; 200; 724], 1024 - sum_sizes [100; 200; 724])]
     else []).
Proof.
  apply (fresh_requests_back_to_back 4096 fresh_heap [100; 200; 724]).
  - lia.
  - reflexivity.
  - repeat constructor.
  - vm_compute. discriminate.
Defined.

(** * The tables *)

Section Printing.


Lemma string_of_uint_numeric (d : Decimal.uint) :
  numeric (DecimalString.NilEmpty.string_of_uint d).
Proof. induction d; simpl; auto. Qed.

Lemma print_int_numeric (z : Z) : numeric (print_int z).
Proof.
  unfold print_int. destruct (Z.to_int z); simpl.
  - apply string_of_uint_numeric.
  - split; [reflexivity|apply string_of_uint_numeric].
Qed.







End Printing.



(** * The menu loop *)

Section Blocks.

Lemma free_nodes_length (l : list MemSegment) :
  free_nodes l = Z.of_nat (List.length l).
Proof. induction l as [|x l IH]; cbn [free_nodes List.length]; lia. Qed.

Lemma combineFrom_frees_length (next : list MemSegment) :
  forall ptr,
    Z.of_nat (List.length (combineFrom ptr next)) + combineFrom_frees ptr next
    = 1 + Z.of_nat (List.length next).
Proof.
  induction next as [|temp next IH]; intros ptr; [reflexivity|].
  cbn [combineFrom combineFrom_frees].
  destruct (Int.add (startAddr ptr) (length ptr) =? startAddr temp).
  - specialize (IH {| startAddr := startAddr ptr;
                      length := Int.add (length ptr) (length temp);
                      memPtr := memPtr ptr |}).
    cbn [List.length]. lia.
  - specialize (IH temp). cbn [List.length] in *. lia.
Qed.

Lemma combineFreeSegments_frees_length (l : list MemSegment) :
  Z.of_nat (List.length (combineFreeSegments l)) + combineFreeSegments_frees l
  = Z.of_nat (List.length l).
Proof.
  destruct l as [|ptr next]; [reflexivity|].
  cbn [combineFreeSegments combineFreeSegments_frees].
  pose proof (combineFrom_frees_length next ptr). cbn [List.length]. lia.
Qed.

(** The nodes in the lists change by the blocks taken less the blocks
    given back. *)
Lemma requestMemory_nodes (node_ok : bool) (size : Z) (st : Heap) :
  nodes (after (requestMemory node_ok size st))
  = nodes st + requestMemory_blocks node_ok size st.
Proof.
  unfold requestMemory, requestMemory_blocks, nodes.
  destruct (size <=? 0); [cbn [after]; lia|].
  destruct (walk _ (availableSegs st)) as [prev rest] eqn:Ew.
  apply walk_split in Ew. destruct Ew as (Ea & _ & _).
  destruct rest as [|ptr next]; [cbn [after]; lia|].
  destruct node_ok; cbn [negb after availableSegs occupiedSegs length];
    [|lia].
  rewrite Ea.
  destruct (Int.sub (length ptr) size =? 0);
    rewrite !length_app; cbn [List.length]; lia.
Qed.

Lemma releaseMemory_nodes (p : Z) (st : Heap) :
  nodes (after (releaseMemory p st))
  = nodes st + releaseMemory_blocks p st.
Proof.
  unfold releaseMemory, releaseMemory_blocks, nodes.
  destruct (p =? NULL); [cbn [after]; lia|].
  destruct (walk _ (occupiedSegs st)) as [prev1 rest1] eqn:Ew1.
  apply walk_split in Ew1. destruct Ew1 as (Eo & _ & _).
  destruct rest1 as [|ptr1 next1]; [cbn [after]; lia|].
  destruct (walk _ (availableSegs st)) as [prev curr] eqn:Ew.
  apply walk_split in Ew. destruct Ew as (Ea & _ & _).
  cbn [after availableSegs occupiedSegs]. pose proof (combineFreeSegments_frees_length (prev ++ ptr1 :: curr)).
  rewrite Ea, Eo. rewrite !length_app in *. cbn [List.length] in *. lia.
Qed.

End Blocks.

Section Cells.

Lemma live_handles_app (l1 l2 : list (option Z)) :
  live_handles (l1 ++ l2) = live_handles l1 ++ live_handles l2.
Proof.
  induction l1 as [|[v|] l1 IH]; simpl; [reflexivity| |assumption].
  destruct (v =? NULL); [assumption|]. simpl. rewrite IH. reflexivity.
Qed.

Lemma firstn_same {A : Type} (n : nat) (a : list A) (x : A) (r : list A) :
  (n <= List.length a)%nat ->
  firstn n (firstn n a ++ x :: r) = firstn n a.
Proof.
  intros H. rewrite firstn_app, firstn_firstn, Nat.min_id, length_firstn.
  rewrite Nat.min_l by assumption. rewrite Nat.sub_diag. simpl.
  apply app_nil_r.
Qed.

Lemma firstn_next {A : Type} (n : nat) (a : list A) (x : A) (r : list A) :
  (n <= List.length a)%nat ->
  firstn (S n) (firstn n a ++ x :: r) = firstn n a ++ [x].
Proof.
  intros H. rewrite firstn_app.
  rewrite (firstn_all2 (firstn n a)) by (rewrite length_firstn; lia).
  rewrite length_firstn, Nat.min_l by assumption.
  replace (S n - n)%nat with 1%nat by lia. reflexivity.
Qed.

Lemma firstn_middle {A : Type} (n m : nat) (a : list A) (x : A)
      (b : list A) :
  List.length a = m -> (m < n)%nat ->
  firstn n (a ++ x :: b) = a ++ x :: firstn (n - S m) b.
Proof.
  intros E H. rewrite firstn_app, E.
  rewrite firstn_all2 by lia.
  replace (n - m)%nat with (S (n - S m)) by lia. reflexivity.
Qed.

Lemma firstn_skipn_at {A : Type} (l1 : list A) (x : A) (l2 : list A) :
  firstn (List.length l1) (l1 ++ x :: l2) = l1 /\
  skipn (S (List.length l1)) (l1 ++ x :: l2) = l2.
Proof.
  induction l1 as [|y l1 (IH1 & IH2)]; [split; reflexivity|].
  split; [simpl; f_equal; exact IH1|exact IH2].
Qed.

Lemma store_cells (i v : Z) (a a' : list (option Z)) :
  store i v a = Some a' ->
  0 <= i < Z.of_nat (List.length a) /\
  a' = firstn (Z.to_nat i) a ++ Some v :: skipn (S (Z.to_nat i)) a /\
  List.length a' = List.length a.
Proof.
  unfold store.
  destruct (Z.leb_spec 0 i), (Z.ltb_spec i (Z.of_nat (List.length a)));
    cbn [andb]; try discriminate.
  intros E. injection E as <-. split; [lia|]. split; [reflexivity|].
  rewrite length_app, length_firstn. cbn [List.length].
  change (match a with [] => [] | _ :: l => skipn (Z.to_nat i) l end)
    with (skipn (S (Z.to_nat i)) a).
  rewrite length_skipn. lia.
Qed.

Lemma store_in_bounds (i v : Z) (a : list (option Z)) :
  0 <= i < Z.of_nat (List.length a) ->
  store i v a
  = Some (firstn (Z.to_nat i) a ++ Some v :: skipn (S (Z.to_nat i)) a).
Proof.
  intros H. unfold store.
  destruct (Z.leb_spec 0 i), (Z.ltb_spec i (Z.of_nat (List.length a)));
    cbn [andb]; try lia. reflexivity.
Qed.

(** The cell at an index below [count], with the cells before it and
    behind it. *)
Lemma cell_split (i c : Z) (a : list (option Z)) :
  0 <= i < c -> c <= Z.of_nat (List.length a) ->
  Forall (fun x => x <> None) (firstn (Z.to_nat c) a) ->
  exists before p behind,
    a = before ++ Some p :: behind /\
    List.length before = Z.to_nat i /\
    firstn (Z.to_nat c) a
    = before ++ Some p :: firstn (Z.to_nat c - S (Z.to_nat i)) behind.
Proof.
  intros Hi Hc Hw.
  destruct (nth_error a (Z.to_nat i)) as [x|] eqn:En.
  - apply nth_error_split in En. destruct En as (l1 & l2 & -> & El).
    assert (firstn (Z.to_nat c) (l1 ++ x :: l2)
            = l1 ++ x :: firstn (Z.to_nat c - S (Z.to_nat i)) l2) as Ef
        by (apply firstn_middle; [assumption|lia]).
    rewrite Ef in Hw. apply Forall_app in Hw. destruct Hw as (_ & Hw).
    inversion Hw as [|? ? Hx _]; subst. destruct x as [p|]; [|contradiction].
    exists l1, p, l2. repeat split; assumption.
  - apply nth_error_None in En. lia.
Qed.

Lemma load_cell (i : Z) (before : list (option Z)) (p : Z)
      (behind : list (option Z)) :
  0 <= i -> List.length before = Z.to_nat i ->
  load i (before ++ Some p :: behind) = Some p /\
  forall v, store i v (before ++ Some p :: behind)
            = Some (before ++ Some v :: behind).
Proof.
  intros Hi El.
  assert (0 <= i < Z.of_nat (List.length (before ++ Some p :: behind))) as Hb.
  { rewrite length_app. simpl. lia. }
  split.
  - unfold load.
    destruct (Z.leb_spec 0 i),
      (Z.ltb_spec i (Z.of_nat (List.length (before ++ Some p :: behind))));
      cbn [andb]; try lia.
    rewrite <- El, nth_error_app2, Nat.sub_diag by lia. reflexivity.
  - intros v. rewrite store_in_bounds by assumption. f_equal.
    rewrite <- El.
    destruct (firstn_skipn_at before (Some p) behind) as (-> & ->).
    reflexivity.
Qed.

Lemma without_handle_map (p : Z) (l : list MemSegment) :
  forall x y, map memPtr l = x ++ p :: y -> ~ In p x ->
              map memPtr (without_handle p l) = x ++ y.
Proof.
  induction l as [|s l IH]; intros [|a x] y E Hx; simpl in *;
    try discriminate.
  - injection E as E1 E2. rewrite E1, Z.eqb_refl. assumption.
  - injection E as E1 E2.
    destruct (Z.eqb_spec (memPtr s) p) as [Ep|Np].
    + exfalso. apply Hx. left. congruence.
    + simpl. rewrite E1. f_equal. apply IH; [assumption|]. tauto.
Qed.

End Cells.

Section Turns.

Lemma msg_invalid_size_other : msg_invalid_size <> msg_unallocated.
Proof. apply String.eqb_neq. reflexivity. Qed.

Lemma msg_alloc_failed_other : msg_alloc_failed <> msg_unallocated.
Proof. apply String.eqb_neq. reflexivity. Qed.

Lemma msg_null_pointer_other : msg_null_pointer <> msg_unallocated.
Proof. apply String.eqb_neq. reflexivity. Qed.

Lemma menu_other : menu <> msg_unallocated.
Proof. apply String.eqb_neq. reflexivity. Qed.

Lemma segment_row_other (s : MemSegment) : segment_row s <> msg_unallocated.
Proof.
  unfold segment_row, tab, msg_unallocated. simpl.
  pose proof (print_int_numeric (startAddr s)) as Hn.
  destruct (print_int (startAddr s)) as [|c rest]; simpl.
  - discriminate.
  - intros E. injection E as E1 E2. subst. destruct Hn as (Hn & _).
    discriminate.
Qed.

Lemma showSegmentList_other (l : list MemSegment) :
  ~ In msg_unallocated (showSegmentList l).
Proof.
  unfold showSegmentList. intros [E|Hin].
  - apply String.eqb_eq in E. discriminate.
  - apply in_app_or in Hin. destruct Hin as [Hin|[E|[]]].
    + apply in_map_iff in Hin. destruct Hin as (s & E & _).
      exact (segment_row_other s E).
    + apply String.eqb_eq in E. discriminate.
Qed.

Lemma showMemoryState_other (st : Heap) :
  ~ In msg_unallocated (showMemoryState st).
Proof.
  unfold showMemoryState. intros Hin.
  apply in_app_or in Hin. destruct Hin as [[E|[]]|Hin].
  { apply String.eqb_eq in E. discriminate. }
  apply in_app_or in Hin. destruct Hin as [Hin|Hin].
  { exact (showSegmentList_other _ Hin). }
  apply in_app_or in Hin. destruct Hin as [[E|[]]|Hin].
  { apply String.eqb_eq in E. discriminate. }
  exact (showSegmentList_other _ Hin).
Qed.

(** What a request does in a state that keeps the invariants. *)
Lemma request_outcome (node_ok : bool) (size : Z) (st : Heap) :
  Inv st ->
  let r := requestMemory node_ok size st in
  (value r = NULL /\ after r = st /\ ~ In msg_unallocated (printed r)) \/
  (value r <> NULL /\ printed r = [] /\
   exists new, occupiedSegs (after r) = occupiedSegs st ++ [new] /\
               memPtr new = value r).
Proof.
  intros H r. subst r.
  destruct (requestMemory_cases node_ok size st)
    as [(_ & ->)|[(_ & _ & ->)|(Hs & prev & ptr & next & Ea & _ & Hfit & C)]].
  - left. simpl. repeat split. intros [E|[]].
    exact (msg_invalid_size_other E).
  - left. simpl. repeat split. intros [].
  - destruct C as [(_ & ->)|(_ & ->)].
    + left. simpl. repeat split. intros [E|[]].
      exact (msg_alloc_failed_other E).
    + right. simpl.
      pose proof (inv_free st H) as Hsp. rewrite Ea in Hsp.
      destruct (spaced_elim 1 0 prev ptr next ltac:(lia) Hsp) as (P1 & _).
      pose proof (inv_base st H) as Hb.
      split; [unfold NULL; lia|]. split; [reflexivity|].
      eexists. split; reflexivity.
Qed.

(** What a release of a handle of the table does. *)
Lemma release_outcome (p : Z) (st : Heap) :
  Inv st -> (p = NULL \/ In p (map memPtr (occupiedSegs st))) ->
  ~ In msg_unallocated (printed (releaseMemory p st)) /\
  (p = NULL -> after (releaseMemory p st) = st).
Proof.
  intros H Hp.
  destruct (releaseMemory_cases p st)
    as [(E & ->)|[(N & Hall & _)|
        (N & prev1 & ptr1 & next1 & prev & curr &
         _ & _ & _ & _ & _ & _ & ->)]]; simpl.
  - split; [|reflexivity]. intros [E'|[]].
    exact (msg_null_pointer_other E').
  - exfalso. destruct Hp as [Hp|Hp]; [contradiction|].
    apply in_map_iff in Hp. destruct Hp as (s & Es & Hs).
    rewrite Forall_forall in Hall. exact (Hall s Hs Es).
  - split; [intros []|contradiction].
Qed.

Lemma main_turn_keeps (t : Turn) (ps ps' : Program) (out : list string) :
  MainInv ps -> main_turn t ps = Some (ps', out) ->
  MainInv ps' /\ ~ In msg_unallocated out /\
  count ps' <= count ps + (if chosen t =? 1 then 1 else 0).
Proof.
  intros H E. unfold main_turn in E.
  pose proof (mi_cells ps H) as Hcells. pose proof (mi_count ps H) as Hcount.
  destruct (Z.eqb_spec (chosen t) 1) as [C1|C1].
  - destruct (store (count ps) _ (allocatedMem ps)) as [mem|] eqn:Es;
      [|discriminate].
    apply store_cells in Es. destruct Es as (Hb & Em & El).
    pose proof (Inv_requestMemory (malloc_ok t) (number t) _ (mi_heap ps H))
      as Hinv.
    pose proof (requestMemory_nodes (malloc_ok t) (number t) (globals ps))
      as Hn.
    pose proof (mi_blocks ps H) as Hbl.
    destruct (request_outcome (malloc_ok t) (number t) _ (mi_heap ps H))
      as [(Ev & Ea & Hp)|(Ev & Hp & new & Eo & Eh)].
    + rewrite Ev in E. cbn [Z.eqb NULL] in E. injection E as <- <-.
      split; [|split; [|cbn [count]; destruct (chosen t =? 1); lia]].
      * constructor; cbn [globals allocatedMem count blocks];
          try assumption; try lia.
        -- rewrite Em, firstn_same by lia. apply (mi_written ps H).
        -- rewrite Em, firstn_same by lia. rewrite Ea.
           apply (mi_table ps H).
      * intros Hin. simpl in Hin.
        destruct Hin as [Hin|[Hin|Hin]].
        -- exact (menu_other Hin).
        -- apply String.eqb_eq in Hin. discriminate.
        -- apply in_app_or in Hin. destruct Hin as [Hin|[Hin|[]]].
           ++ exact (Hp Hin).
           ++ apply String.eqb_eq in Hin. discriminate.
    + destruct (Z.eqb_spec (value (requestMemory (malloc_ok t) (number t)
                                                 (globals ps))) NULL)
        as [Z0|_]; [contradiction|].
      injection E as <- <-.
      assert (Int.add (count ps) 1 = count ps + 1) as Ec by (int_exact; lia).
      assert (Z.to_nat (count ps + 1) = S (Z.to_nat (count ps))) as En by lia.
      split; [|split; [|cbn [count]; rewrite Ec;
                        destruct (Z.eqb_spec (chosen t) 1); lia]].
      * constructor; cbn [globals allocatedMem count blocks];
          try assumption; try lia.
        -- rewrite Ec, En, Em, firstn_next by lia.
           apply Forall_app. split; [apply (mi_written ps H)|].
           constructor; [discriminate|constructor].
        -- rewrite Ec, En, Em, firstn_next by lia.
           rewrite live_handles_app, (mi_table ps H), Eo, map_app.
           f_equal. simpl. rewrite Eh.
           destruct (Z.eqb_spec (value (requestMemory (malloc_ok t)
                                          (number t) (globals ps))) NULL);
             [contradiction|reflexivity].
      * rewrite Hp. intros Hin. simpl in Hin.
        destruct Hin as [Hin|[Hin|[Hin|[]]]].
        -- exact (menu_other Hin).
        -- apply String.eqb_eq in Hin. discriminate.
        -- unfold msg_unallocated in Hin. simpl in Hin. discriminate.
  - destruct (Z.eqb_spec (chosen t) 2) as [C2|C2].
    + destruct ((number t >=? 0) && (number t <? count ps)) eqn:Ev.
      * apply andb_true_iff in Ev. destruct Ev as (V1 & V2).
        apply Z.geb_le in V1. apply Z.ltb_lt in V2.
        destruct (cell_split (number t) (count ps) (allocatedMem ps))
          as (before & p & behind & Em & El & Ef);
          [lia|lia|apply (mi_written ps H)|].
        pose proof (mi_written ps H) as Hw. pose proof (mi_table ps H) as Ht.
        rewrite Ef in Hw, Ht. rewrite Em in E, Hcells.
        destruct (load_cell (number t) before p behind V1 El) as (Eload & Est).
        rewrite Eload, (Est NULL) in E. injection E as <- <-.
        pose proof (Inv_releaseMemory p _ (mi_heap ps H)) as Hinv.
        pose proof (releaseMemory_nodes p (globals ps)) as Hn.
        pose proof (mi_blocks ps H) as Hbl.
        rewrite live_handles_app in Ht. cbn [live_handles] in Ht.
        assert (firstn (Z.to_nat (count ps)) (before ++ Some NULL :: behind)
                = before ++ Some NULL
                  :: firstn (Z.to_nat (count ps) - S (Z.to_nat (number t)))
                            behind) as Ef'
            by (apply firstn_middle; [assumption|lia]).
        assert (p = NULL \/ In p (map memPtr (occupiedSegs (globals ps))))
          as Hp.
        { destruct (Z.eqb_spec p NULL); [now left|right].
          rewrite <- Ht. apply in_elt. }
        destruct (release_outcome p _ (mi_heap ps H) Hp) as (Hout & Hnull).
        split; [|split; [|cbn [count]; destruct (chosen t =? 1); lia]].
        -- constructor; cbn [globals allocatedMem count blocks];
             try assumption; try lia.
           ++ rewrite length_app in *. exact Hcells.
           ++ rewrite Ef'. apply Forall_app in Hw. destruct Hw as (W1 & W2).
              inversion W2; subst. apply Forall_app.
              split; [assumption|]. constructor; [discriminate|assumption].
           ++ rewrite Ef', live_handles_app. cbn [live_handles NULL Z.eqb].
              destruct (Z.eqb_spec p NULL) as [Z0|N0].
              ** rewrite (Hnull Z0). exact Ht.
              ** rewrite released_occupied by assumption.
                 symmetry. apply without_handle_map; [symmetry; exact Ht|].
                 pose proof (Inv_NoDup_memPtr _ (mi_heap ps H)) as Hnd.
                 rewrite <- Ht in Hnd. apply NoDup_remove_2 in Hnd.
                 intros Hin. apply Hnd. apply in_or_app. now left.
        -- intros Hin. simpl in Hin. destruct Hin as [Hin|[Hin|Hin]].
           ++ exact (menu_other Hin).
           ++ apply String.eqb_eq in Hin. discriminate.
           ++ exact (Hout Hin).
      * injection E as <- <-. split; [assumption|].
        split; [|destruct (chosen t =? 1); lia].
        intros Hin. simpl in Hin. destruct Hin as [Hin|[Hin|[Hin|[]]]].
        -- exact (menu_other Hin).
        -- apply String.eqb_eq in Hin. discriminate.
        -- apply String.eqb_eq in Hin. discriminate.
    + destruct (chosen t =? 3); injection E as <- <-;
        (split; [assumption|]); (split; [|destruct (chosen t =? 1); lia]).
      * intros [Hin|Hin]; [exact (menu_other Hin)|].
        exact (showMemoryState_other _ Hin).
      * intros [Hin|[]]. exact (menu_other Hin).
Qed.

Lemma main_turn_undefined (t : Turn) (ps : Program) :
  MainInv ps -> main_turn t ps = None ->
  chosen t = 1 /\ count ps = 20.
Proof.
  intros H E. unfold main_turn in E.
  pose proof (mi_cells ps H) as Hcells. pose proof (mi_count ps H) as Hcount.
  destruct (Z.eqb_spec (chosen t) 1) as [C1|C1].
  - split; [assumption|].
    destruct (Z_lt_ge_dec (count ps) 20) as [L|G]; [exfalso|lia].
    rewrite store_in_bounds in E by lia.
    destruct (value _ =? NULL); discriminate.
  - exfalso. destruct (chosen t =? 2); [|destruct (chosen t =? 3); discriminate].
    destruct ((number t >=? 0) && (number t <? count ps)) eqn:Ev;
      [|discriminate].
    apply andb_true_iff in Ev. destruct Ev as (V1 & V2).
    apply Z.geb_le in V1. apply Z.ltb_lt in V2.
    destruct (cell_split (number t) (count ps) (allocatedMem ps))
      as (before & p & behind & Em & El & Ef);
      [lia|lia|apply (mi_written ps H)|].
    rewrite Em in E.
    destruct (load_cell (number t) before p behind V1 El) as (Eload & Est).
    rewrite Eload, (Est NULL) in E. discriminate.
Qed.

End Turns.

Section Loop.

Lemma requests_nonneg (turns : list Turn) : 0 <= requests turns.
Proof.
  induction turns as [|t turns IH]; simpl; [lia|].
  destruct (chosen t =? 1); lia.
Qed.

Lemma MainInv_exit (ps : Program) :
  MainInv ps -> blocks ps - releaseHeap (globals ps) = 0.
Proof.
  intros H. rewrite (mi_blocks ps H). unfold releaseHeap, nodes.
  rewrite !free_nodes_length. lia.
Qed.

Lemma main_loop_keeps (turns : list Turn) :
  forall ps out,
    MainInv ps -> ~ In msg_unallocated out ->
    match main_loop turns ps out with
    | Waiting ps' out' => MainInv ps' /\ ~ In msg_unallocated out'
    | Exited out' unfreed => unfreed = 0 /\ ~ In msg_unallocated out'
    | Failed _ _ => False
    | Undefined => 20 < count ps + requests turns
    end.
Proof.
  induction turns as [|t turns IH]; intros ps out H Hout; [simpl; auto|].
  cbn [main_loop requests].
  destruct (main_turn t ps) as [[ps' now]|] eqn:Et.
  - destruct (main_turn_keeps t ps ps' now H Et) as (H' & Hnow & Hc).
    assert (~ In msg_unallocated (out ++ now)) as Hout'.
    { intros Hin. apply in_app_or in Hin. tauto. }
    destruct (chosen t =? 4).
    + split; [apply MainInv_exit; assumption|assumption].
    + specialize (IH ps' (out ++ now) H' Hout').
      destruct (main_loop turns ps' (out ++ now)); try assumption. lia.
  - destruct (main_turn_undefined t ps H Et) as (E1 & E2).
    rewrite E1, E2. pose proof (requests_nonneg turns).
    change (1 =? 1) with true. cbv iota. lia.
Qed.

Lemma MainInv_start (heap : Z) (first_node_ok : bool) (st : Heap) :
  0 <= heap -> setupHeap heap first_node_ok = Some st ->
  MainInv {| globals := st; allocatedMem := repeat None 20;
             count := 0; blocks := 2 |}.
Proof.
  intros Hh E.
  assert (0 < heap) as Hpos.
  { unfold setupHeap in E. destruct (Z.eqb_spec heap NULL) as [Z0|N0];
      [discriminate|unfold NULL in N0; lia]. }
  pose proof (Inv_setupHeap heap first_node_ok st Hpos E) as Hinv.
  unfold setupHeap in E. destruct (heap =? NULL); [discriminate|].
  destruct (negb first_node_ok); [discriminate|]. injection E as <-.
  constructor; cbn [globals allocatedMem count blocks]; try assumption;
    try reflexivity; try lia.
  constructor.
Qed.

(** A run of [main] keeps the invariants of the loop, ends with every
    block given back and never prints the line for a pointer that is not
    allocated. *)
Lemma main_keeps (heap : Z) (first_node_ok : bool) (turns : list Turn) :
  0 <= heap ->
  match main heap first_node_ok turns with
  | Waiting ps out => MainInv ps /\ ~ In msg_unallocated out
  | Exited out unfreed => unfreed = 0 /\ ~ In msg_unallocated out
  | Failed out unfreed => unfreed = 0 /\ ~ In msg_unallocated out
  | Undefined => 20 < requests turns
  end.
Proof.
  intros Hh. unfold main.
  destruct (setupHeap heap first_node_ok) as [st|] eqn:E.
  - pose proof (main_loop_keeps turns _ []
                  (MainInv_start heap first_node_ok st Hh E)
                  (fun H => H)) as H.
    cbn [count] in H.
    destruct (main_loop turns _ []); tauto.
  - destruct (heap =? NULL); (split; [reflexivity|]); intros [Hin|[]];
      apply String.eqb_eq in Hin; discriminate.
Qed.

End Loop.

(** X15. Whatever is typed at the menu, [main] never prints "Error:
    Attempted to free unallocated memory!": the pointers it passes to
    [releaseMemory] are NULL or handles of allocated segments. *)
Theorem main_never_frees_unallocated
        (heap : Z) (first_node_ok : bool) (turns : list Turn)
        (Hheap : 0 <= heap) :
  match main heap first_node_ok turns with
  | Waiting _ out | Exited out _ | Failed out _ => ~ In msg_unallocated out
  | Undefined => True
  end.
Proof.
  pose proof (main_keeps heap first_node_ok turns Hheap) as H.
  destruct (main heap first_node_ok turns); tauto.
Qed.

(** X16. Between two turns of the menu, the cells of [allocatedMem] below
    [count] all have been written, [count] is between 0 and 20, and the
    cells that are not NULL hold exactly the handles of the allocated
    list, in the same order. *)
Theorem main_table_agrees
        (heap : Z) (first_node_ok : bool) (turns : list Turn)
        (ps : Program) (out : list string)
        (Hheap : 0 <= heap)
        (Hrun : main heap first_node_ok turns = Waiting ps out) :
  0 <= count ps <= 20 /\
  Forall (fun c => c <> None)
         (firstn (Z.to_nat (count ps)) (allocatedMem ps)) /\
  live_handles (firstn (Z.to_nat (count ps)) (allocatedMem ps))
  = map memPtr (occupiedSegs (globals ps)).
Proof.
  pose proof (main_keeps heap first_node_ok turns Hheap) as H.
  rewrite Hrun in H. destruct H as (H & _).
  split; [apply (mi_count ps H)|].
  split; [apply (mi_written ps H)|apply (mi_table ps H)].
Qed.


(** X18. When [main] ends, by option 4 or by [exit(1)] in [setupHeap],
    [free] has been called once for each block [malloc] returned; and
    between two turns the blocks in use are the simulated heap and one
    node for each segment of the two lists. *)
Theorem main_gives_back_every_block
        (heap : Z) (first_node_ok : bool) (turns : list Turn)
        (Hheap : 0 <= heap) :
  match main heap first_node_ok turns with
  | Exited _ unfreed | Failed _ unfreed => unfreed = 0
  | Waiting ps _ =>
      blocks ps
      = 1 + Z.of_nat (List.length (availableSegs (globals ps)))
        + Z.of_nat (List.length (occupiedSegs (globals ps)))
  | Undefined => True
  end.
Proof.
  pose proof (main_keeps heap first_node_ok turns Hheap) as H.
  destruct (main heap first_node_ok turns) as [? ?|ps ?|? ?|]; try tauto.
  destruct H as (H & _). rewrite (mi_blocks ps H). unfold nodes. lia.
Qed.

Section Overrun.

Lemma request_at_tail (size start m : Z) (st : Heap) :
  availableSegs st
  = [ {| startAddr := start; length := 1024 - start; memPtr := m |} ] ->
  0 <= start -> 0 < size -> start + size <= 1024 ->
  requestMemory true size st
  = mkReturned (simulatedHeap st + start) []
      {| simulatedHeap := simulatedHeap st;
         availableSegs :=
           if 1024 - start - size =? 0 then []
           else [ {| startAddr := start + size;
                     length := 1024 - start - size;
                     memPtr := m |} ];
         occupiedSegs :=
           occupiedSegs st
           ++ [ {| startAddr := start; length := size;
                   memPtr := simulatedHeap st + start |} ] |}.
Proof.
  intros El Hs Hsize Hfit. unfold requestMemory. rewrite El.
  destruct (Z.leb_spec size 0); [lia|].
  match goal with
  | |- context [walk ?c ?l] => assert (walk c l = ([], l)) as ->
  end.
  { apply (walk_stop _ [] _ []); [constructor|].
    cbn [length]. rewrite Z.gtb_ltb. apply Z.ltb_ge. lia. }
  cbn [negb app length startAddr memPtr]. int_exact. reflexivity.
Qed.

(** Requests that fit behind one another each take the next cell of the
    table. *)
Lemma request_turns_fill (sizes : list Z) :
  forall start ps out rest,
    0 < simulatedHeap (globals ps) ->
    0 <= start -> start + sum_sizes sizes <= 1024 ->
    Forall (fun size => 0 < size) sizes ->
    (start < 1024 ->
     exists m, availableSegs (globals ps)
               = [ {| startAddr := start; length := 1024 - start;
                      memPtr := m |} ]) ->
    0 <= count ps ->
    count ps + Z.of_nat (List.length sizes) <= 20 ->
    List.length (allocatedMem ps) = 20%nat ->
    exists ps' out',
      main_loop (map request_turn sizes ++ rest) ps out
      = main_loop rest ps' out' /\
      count ps' = count ps + Z.of_nat (List.length sizes) /\
      List.length (allocatedMem ps') = 20%nat.
Proof.
  induction sizes as [|size sizes IH];
    intros start ps out rest Hb Hs Hsum Hpos Elt Hc Hfill Hcells.
  - exists ps, out. cbn [map app List.length]. repeat split; [lia|assumption].
  - inversion Hpos as [|? ? Hsize Hpos']; subst.
    change (start + (size + sum_sizes sizes) <= 1024) in Hsum.
    assert (0 <= sum_sizes sizes) as Hnn.
    { clear -Hpos'. induction Hpos'; simpl; lia. }
    cbn [List.length] in Hfill.
    destruct (Elt ltac:(lia)) as (m & El).
    cbn [map app main_loop]. unfold main_turn.
    cbn [request_turn chosen number malloc_ok].
    change (1 =? 1) with true. change (1 =? 4) with false. cbv iota.
    rewrite (request_at_tail size start m (globals ps) El) by lia.
    cbn [value after printed].
    rewrite store_in_bounds by lia.
    destruct (Z.eqb_spec (simulatedHeap (globals ps) + start) NULL)
      as [Z0|_]; [unfold NULL in Z0; lia|].
    match goal with
    | |- context [main_loop _ ?p ?o] =>
        destruct (IH (start + size) p o rest) as (ps' & out' & E & Ec & El')
    end; cbn [globals count allocatedMem simulatedHeap availableSegs];
      try assumption; try lia.
    + intros L. destruct (Z.eqb_spec (1024 - start - size) 0); [lia|].
      exists m. replace (1024 - (start + size)) with (1024 - start - size)
        by lia. reflexivity.
    + int_exact. lia.
    + int_exact. lia.
    + rewrite length_app, length_firstn. cbn [List.length].
      change (match allocatedMem ps with
              | [] => []
              | _ :: l => skipn (Z.to_nat (count ps)) l
              end)
        with (skipn (S (Z.to_nat (count ps))) (allocatedMem ps)).
      rewrite length_skipn. lia.
    + exists ps', out'. split; [exact E|]. split; [|exact El'].
      rewrite Ec. cbn [count List.length]. int_exact. lia.
Qed.

(** A release at an index below [count], twice. *)
Lemma release_turn_twice (t : Turn) (ps : Program) :
  MainInv ps -> chosen t = 2 -> 0 <= number t < count ps ->
  exists ps1 out1,
    main_turn t ps = Some (ps1, out1) /\
    main_turn t ps1
    = Some (ps1, [menu; "Enter index: "%string; msg_null_pointer]).
Proof.
  intros H C2 Hi. pose proof (mi_cells ps H) as Hcells.
  pose proof (mi_count ps H) as Hcount.
  destruct (cell_split (number t) (count ps) (allocatedMem ps))
    as (before & p & behind & Em & El & Ef);
    [lia|lia|apply (mi_written ps H)|].
  destruct (load_cell (number t) before p behind ltac:(lia) El)
    as (Eload & Est).
  destruct (load_cell (number t) before NULL behind ltac:(lia) El)
    as (Eload' & Est').
  assert ((number t >=? 0) && (number t <? count ps) = true) as Ev.
  { apply andb_true_iff. split; [apply Z.geb_le|apply Z.ltb_lt]; lia. }
  eexists. eexists. split.
  - unfold main_turn. rewrite C2. change (2 =? 1) with false.
    change (2 =? 2) with true. cbv iota.
    rewrite Ev, Em, Eload, (Est NULL). reflexivity.
  - unfold main_turn. rewrite C2. change (2 =? 1) with false.
    change (2 =? 2) with true. cbv iota.
    cbn [count allocatedMem globals blocks].
    rewrite Ev, Eload', (Est' NULL), releaseMemory_null.
    cbn [after printed app]. unfold releaseMemory_blocks.
    change (NULL =? NULL) with true. cbv iota. rewrite Z.add_0_r.
    reflexivity.
Qed.

End Overrun.

Lemma main_never_frees_unallocated_witness :
  match main 4096 true sample_turns with
  | Waiting _ out | Exited out _ | Failed out _ => ~ In msg_unallocated out
  | Undefined => True
  end.
Proof.
  apply (main_never_frees_unallocated 4096 true sample_turns). lia.
Defined.

Lemma main_table_agrees_witness :
  match main 4096 true sample_turns with
  | Waiting ps out =>
      0 <= count ps <= 20 /\
      Forall (fun c => c <> None)
             (firstn (Z.to_nat (count ps)) (allocatedMem ps)) /\
      live_handles (firstn (Z.to_nat (count ps)) (allocatedMem ps))
      = map memPtr (occupiedSegs (globals ps))
  | _ => False
  end.
Proof.
  destruct (main 4096 true sample_turns) as [? ?|ps out|? ?|] eqn:E;
    try (vm_compute in E; discriminate E).
  apply (main_table_agrees 4096 true sample_turns ps out); [lia|exact E].
Defined.


Lemma main_gives_back_every_block_witness :
  match main 4096 true
             (sample_turns ++ [ {| chosen := 4; number := 0;
                                   malloc_ok := true |} ]) with
  | Exited _ unfreed | Failed _ unfreed => unfreed = 0
  | Waiting ps _ =>
      blocks ps
      = 1 + Z.of_nat (List.length (availableSegs (globals ps)))
        + Z.of_nat (List.length (occupiedSegs (globals ps)))
  | Undefined => True
  end.
Proof.
  apply (main_gives_back_every_block 4096 true). lia.
Defined.

(** X19. Between two turns of the menu, option 2 with an index below
    [count] goes through, and the same turn once more prints "Error: Null
    pointer cannot be freed!" and changes nothing: [main] sets the cell to
    NULL after the release, so a segment is not released twice through its
    index. *)
Theorem main_release_clears_cell
        (heap : Z) (first_node_ok : bool) (turns : list Turn)
        (ps : Program) (out : list string) (t : Turn)
        (Hheap : 0 <= heap)
        (Hrun : main heap first_node_ok turns = Waiting ps out)
        (Hchosen : chosen t = 2)
        (Hindex : 0 <= number t < count ps) :
  exists ps1 out1,
    main_turn t ps = Some (ps1, out1) /\
    main_turn t ps1
    = Some (ps1, [menu; "Enter index: "%string; msg_null_pointer]).
Proof.
  pose proof (main_keeps heap first_node_ok turns Hheap) as H.
  rewrite Hrun in H. destruct H as (H & _).
  apply release_turn_twice; assumption.
Qed.

Lemma main_release_clears_cell_witness :
  match main 4096 true sample_turns with
  | Waiting ps out =>
      exists ps1 out1,
        main_turn (release_turn 2) ps = Some (ps1, out1) /\
        main_turn (release_turn 2) ps1
        = Some (ps1, [menu; "Enter index: "%string; msg_null_pointer])
  | _ => False
  end.
Proof.
  destruct (main 4096 true sample_turns) as [? ?|ps out|? ?|] eqn:E;
    try (vm_compute in E; discriminate E).
  apply (main_release_clears_cell 4096 true sample_turns ps out
                                  (release_turn 2)).
  - lia.
  - exact E.
  - reflexivity.
  - vm_compute in E. injection E as <- _. cbn [number release_turn count].
    lia.
Defined.

(** X20. [main] does not check [count] against the 20 cells of
    [allocatedMem]: after 20 requests of positive sizes that add up to at
    most 1024, each with its node allocated, all 20 cells are taken, and a
    turn that chooses option 1 once more, whatever its size, writes
    outside the array. *)
Theorem main_overruns_table
        (heap : Z) (sizes : list Z) (t : Turn) (rest : list Turn)
        (Hheap : 0 < heap)
        (Hsizes : List.length sizes = 20%nat)
        (Hpos : Forall (fun size => 0 < size) sizes)
        (Hsum : sum_sizes sizes <= 1024)
        (Hchosen : chosen t = 1) :
  main heap true (map request_turn sizes ++ t :: rest) = Undefined.
Proof.
  unfold main, setupHeap.
  destruct (Z.eqb_spec heap NULL) as [Z0|_]; [unfold NULL in Z0; lia|].
  cbn [negb].
  match goal with
  | |- main_loop _ ?p ?o = _ =>
      destruct (request_turns_fill sizes 0 p o (t :: rest))
        as (ps' & out' & E & Ec & El)
  end; cbn [globals simulatedHeap availableSegs count allocatedMem];
    try assumption; try lia.
  - intros _. eexists. reflexivity.
  - reflexivity.
  - rewrite E. cbn [main_loop]. unfold main_turn. rewrite Hchosen.
    change (1 =? 1) with true. cbv iota. cbn [count] in Ec.
    unfold store. rewrite El, Ec, Hsizes.
    change (0 + Z.of_nat 20 <? Z.of_nat 20) with false.
    rewrite andb_false_r. reflexivity.
Qed.

Lemma main_overruns_table_witness :
  main 4096 true
       (map request_turn (repeat 51 20)
        ++ {| chosen := 1; number := -3; malloc_ok := false |} :: [])
  = Undefined.
Proof.
  apply (main_overruns_table 4096 (repeat 51 20)).
  - lia.
  - reflexivity.
  - repeat constructor.
  - vm_compute. discriminate.
  - reflexivity.
Defined.
